(** * Liar's Dice solver ([dice.py]): a shallow embedding and its properties

    The development follows [dice.py] function by function.

    - Python integers are [Z]; [len] is [Z.of_nat (length _)].
    - Python lists are [list]; indexing goes through [getitem]/[setitem],
      which raise [IndexError] out of range as Python does.
    - Probabilities are Python floats in the source.  Their values are
      modelled by exact rationals [Q] (the data model of the specification
      takes them to be real numbers), compared with [Qeq] ([==]): rounding
      and underflow of binary floating point are outside this model.  The
      exceptions of float arithmetic are inside it: the conversion of an
      integer that is too large for a float, and a power that leaves the
      range of the floats, raise [OverflowError].
    - Exceptions are values of the error monad [result].
    - [random.randint] is an oracle: the dice rolled in trial [i] of the
      simulator are given by a function of [i]. *)

From Stdlib Require Import ZArith QArith Qpower Qround Qabs Lia Lqa.
From stdpp Require Import base option list list_numbers gmap strings pretty.

Local Open Scope Z_scope.

(** ** Python primitives *)

Module Py.

Inductive exn : Set :=
  ZeroDivisionError | IndexError | ValueError | OverflowError.

Inductive result (A : Type) : Type :=
| Ok (a : A)
| Raise (e : exn).
Global Arguments Ok {A} a.
Global Arguments Raise {A} e.

#[global] Instance result_ret : MRet result := λ A a, Ok a.
#[global] Instance result_bind : MBind result := λ A B f m,
  match m with
  | Ok a => f a
  | Raise e => Raise e
  end.

(** [len(l)] *)
Definition len {A} (l : list A) : Z := Z.of_nat (length l).

(** [range(a, b)] *)
Definition range (a b : Z) : list Z := seqZ a (b - a).

(** [for i in l: s = body(i, s)] *)
Fixpoint for_each {S : Type} (l : list Z) (body : Z → S → result S) (s : S)
  : result S :=
  match l with
  | [] => Ok s
  | i :: l' => s' ← body i s; for_each l' body s'
  end.

(** [a / b] on integers (true division).  The quotients of [dice.py] are at
    most 2 in magnitude, far from the range error of this division. *)
Definition truediv (a b : Z) : result Q :=
  if decide (b = 0) then Raise ZeroDivisionError
  else Ok (inject_Z a / inject_Z b)%Q.

(** Position of index [k] in a list of length [n]: negative indices count
    from the end. *)
Definition index_of (n : nat) (k : Z) : option nat :=
  if decide (0 ≤ k < Z.of_nat n) then Some (Z.to_nat k)
  else if decide (- Z.of_nat n ≤ k < 0) then Some (Z.to_nat (Z.of_nat n + k))
  else None.

(** [l[k]] *)
Definition getitem {A} (l : list A) (k : Z) : result A :=
  match index_of (length l) k ≫= (l !!.) with
  | Some a => Ok a
  | None => Raise IndexError
  end.

(** [l[k] = v] *)
Definition setitem {A} (l : list A) (k : Z) (v : A) : result (list A) :=
  match index_of (length l) k with
  | Some i => Ok (<[i:=v]> l)
  | None => Raise IndexError
  end.

(** Pascal's triangle. *)
Fixpoint binom (n k : nat) : nat :=
  match n, k with
  | _, O => 1
  | O, S _ => 0
  | S n', S k' => binom n' k' + binom n' (S k')
  end%nat.

(** [math.comb(n, k)].  Python raises [ValueError] on a negative argument;
    every call in [dice.py] has [0 <= k <= n] (see the loop ranges). *)
Definition comb (n k : Z) : Z := Z.of_nat (binom (Z.to_nat n) (Z.to_nat k)).

#[global] Instance Qeq_decision : RelDecision Qeq :=
  λ a b, decide (Qnum a * QDen b = Qnum b * QDen a).
#[global] Instance Qle_decision : RelDecision Qle :=
  λ a b, decide (Qnum a * QDen b ≤ Qnum b * QDen a).

(** The least magnitude of an integer that does not convert to a float: the
    conversion rounds to the nearest float, and [2^1024 - 2^970] lies halfway
    between the greatest float and [2^1024]. *)
Definition float_limit : Z := 2 ^ 1024 - 2 ^ 970.

(** The conversion of an int to a float, as made when an int meets a float
    in an arithmetic operation. *)
Definition float_of_int (z : Z) : result Q :=
  if decide (float_limit ≤ Z.abs z) then Raise OverflowError
  else Ok (inject_Z z).

(** [c * f] for an int [c] and a float [f]. *)
Definition int_times_float (c : Z) (f : Q) : result Q :=
  cf ← float_of_int c; Ok (cf * f)%Q.

(** [b ** e] for a float [b] and an int [e]: the exponent is converted to a
    float, zero has no negative power, and a result out of the range of the
    floats is an error. *)
Definition float_pow (b : Q) (e : Z) : result Q :=
  if decide (float_limit ≤ Z.abs e) then Raise OverflowError
  else if decide (b == 0 ∧ e < 0) then Raise ZeroDivisionError
  else
    let r := (b ^ e)%Q in
    if decide (inject_Z float_limit <= Qabs r)%Q then Raise OverflowError
    else Ok r.

(** [round(q)] to the nearest integer, ties to even. *)
Definition round_half_even (q : Q) : Z :=
  let f := Qfloor q in
  let r := (q - inject_Z f)%Q in
  match (r ?= 1 # 2)%Q with
  | Lt => f
  | Gt => f + 1
  | Eq => if Z.even f then f else f + 1
  end.

(** [round(q, ndigits)] *)
Definition round (q : Q) (ndigits : Z) : Q :=
  (inject_Z (round_half_even (q * inject_Z (10 ^ ndigits)))
   / inject_Z (10 ^ ndigits))%Q.

End Py.
Import Py.

(** ** The program *)

Definition wildcard_value : Z := 1.

(** [len([0 for die in hand if die == wildcard_value or die == x])] *)
Definition friendly (x : Z) (hand : list Z) : Z :=
  len (filter (λ die, die = wildcard_value ∨ die = x) hand).

(** [predict_probability(x, y, n, d, hand)], lines 15-50.  The operands of
    lines 34 and 44 are evaluated from left to right: the binomial
    coefficient, the first power, their product (which converts the
    coefficient to a float), the second power, the last product. *)
Definition predict_probability (x y n d : Z) (hand : list Z) : result Q :=
  let ext_n := n - len hand in
  let friendly_die := friendly x hand in
  let ext_y := y - friendly_die in
  if decide (ext_y ≤ 0) then Ok 1%Q
  else
    for_each (range 0 (ext_n + 1)) (λ i probability,
      let c := comb ext_n i in
      a ← truediv 1 d;
      pa ← float_pow a i;
      m ← int_times_float c pa;
      b ← truediv (d - 1) d;
      pb ← float_pow b (ext_n - i);
      let wildcard_p := (m * pb)%Q in
      if decide (i >= ext_y) then
        Ok (probability + wildcard_p)%Q
      else
        cum_sub_p ← for_each (range (ext_y - i) (ext_n - i + 1)) (λ j cum_sub_p,
          let c := comb (ext_n - i) j in
          a ← truediv 1 (d - 1);
          pa ← float_pow a j;
          m ← int_times_float c pa;
          b ← truediv (d - 2) (d - 1);
          pb ← float_pow b (ext_n - i - j);
          let sub_p := (m * pb)%Q in
          Ok (cum_sub_p + sub_p)%Q) 0%Q;
        Ok (probability + wildcard_p * cum_sub_p)%Q) 0%Q.

(** [random.randint(a, b)]: raises [ValueError] on an empty range, and
    otherwise returns the value [drawn] supplied by the oracle. *)
Definition randint (a b : Z) (drawn : Z) : result Z :=
  if decide (b < a) then Raise ValueError else Ok drawn.

(** [simulate_probability(x, y, n, d, hand, iterations)], lines 52-82.
    [rolls i k] is the face drawn for die [k] of trial [i]. *)
Definition simulate_probability (x y n d : Z) (hand : list Z) (iterations : Z)
    (rolls : Z → Z → Z) : result Q :=
  let ext_n := n - len hand in
  let friendly_die := friendly x hand in
  let ext_y := y - friendly_die in
  if decide (ext_y ≤ 0) then Ok 1%Q
  else
    '(bid_success_count, wildcard_buckets) ←
      for_each (range 0 iterations) (λ i '(bid_success_count, wildcard_buckets),
        dice ← for_each (range 0 ext_n) (λ die dice,
                  r ← randint 1 d (rolls i die); Ok (dice ++ [r])) [];
        let x_count := len (filter (λ die, die = x) dice) in
        let wildcard_count := len (filter (λ die, die = wildcard_value) dice) in
        if decide (x_count + wildcard_count >= ext_y) then
          old ← getitem wildcard_buckets wildcard_count;
          wildcard_buckets ← setitem wildcard_buckets wildcard_count (old + 1);
          Ok (bid_success_count + 1, wildcard_buckets)
        else Ok (bid_success_count, wildcard_buckets))
      (0, (λ _, 0) <$> range 0 10);
    wc_p_buckets ←
      for_each (range 0 10) (λ i wc_p_buckets,
        b ← getitem wildcard_buckets i;
        q ← truediv b iterations;
        Ok (wc_p_buckets ++ [round q 4])) [];
    truediv bid_success_count iterations.

(** [display(table)], lines 169-184: printing is not modelled; the only
    exception it can raise is the [table[0]] of its header line. *)
Definition display (table : list (list Q)) : result () :=
  _ ← getitem table 0; Ok ().

#[global] Instance Qlt_decision : RelDecision Qlt :=
  λ a b, decide (Qnum a * QDen b < Qnum b * QDen a).

(** The action strings. *)
Definition call_previous_player : string := "call previous player".
Definition bid_action (x y : Z) : string :=
  "bid(" +:+ pretty x +:+ ", " +:+ pretty y +:+ ")".

(** The local variables of the selection loop, lines 146-151. *)
Record best : Type := Best {
  best_I_p : Q;   best_I_act : string;
  best_II_p : Q;  best_II_act : string;
  best_III_p : Q; best_III_act : string
}.

(** Lines 138-143: the probability table. *)
Definition build_table (n d : Z) (hand : list Z) : result (list (list Q)) :=
  let table := (λ j, (λ i, 0%Q) <$> range 0 (d - 1)) <$> range 0 n in
  for_each (range 1 (n + 1)) (λ i table,
    for_each (range 2 (d + 1)) (λ j table,
      p ← predict_probability j i n d hand;
      row ← getitem table (i - 1);
      row ← setitem row (j - 2) p;
      setitem table (i - 1) row) table) table.

(** Lines 155-163: the three tests made on one cell. *)
Definition consider_cell (prev_x prev_y i j : Z) (cell : Q) (b : best) : best :=
  let b :=
    if decide ((cell > best_I_p b)%Q ∧
               (i + 1 > prev_y ∨ (j + 2 > prev_x ∧ i + 1 = prev_y)))
    then Best cell (bid_action (j + 2) (i + 1))
              (best_II_p b) (best_II_act b) (best_III_p b) (best_III_act b)
    else b in
  let b :=
    if decide ((cell > best_II_p b)%Q ∧
               (j + 2 > prev_x ∨ (i + 1 > prev_y ∧ j + 2 = prev_x)))
    then Best (best_I_p b) (best_I_act b)
              cell (bid_action (j + 2) (i + 1))
              (best_III_p b) (best_III_act b)
    else b in
  let b :=
    if decide ((cell > best_III_p b)%Q ∧
               ((j + 2 > prev_x ∧ i + 1 = prev_y) ∨
                (i + 1 > prev_y ∧ j + 2 = prev_x)))
    then Best (best_I_p b) (best_I_act b) (best_II_p b) (best_II_act b)
              cell (bid_action (j + 2) (i + 1))
    else b in
  b.

(** Lines 146-163: the scan of the table under the three legality rules.
    [table[i][j]] is read once per cell: reading has no effect. *)
Definition select_best (prev_x prev_y : Z) (p_liar : Q) (table : list (list Q))
  : result best :=
  for_each (range 0 (len table)) (λ i b,
    row ← getitem table i;
    for_each (range 0 (len row)) (λ j b,
      cell ← (row ← getitem table i; getitem row j);
      Ok (consider_cell prev_x prev_y i j cell b)) b)
    (Best p_liar call_previous_player p_liar call_previous_player
          p_liar call_previous_player).

(** What one run of [compute_optimal_next_move] computes and prints. *)
Record decision : Type := Decision_ {
  p_liar : Q;
  table : list (list Q);
  optimal : best
}.

(** [compute_optimal_next_move(prev_x, prev_y, n, d, hand)], lines 124-166. *)
Definition compute_optimal_next_move (prev_x prev_y n d : Z) (hand : list Z)
  : result decision :=
  p ← predict_probability prev_x prev_y n d hand;
  let p_liar := (1 - p)%Q in
  table ← build_table n d hand;
  _ ← display table;
  b ← select_best prev_x prev_y p_liar table;
  Ok (Decision_ p_liar table b).

(** ** The words of the specification *)

Definition valid_config (n d : Z) : Prop := 0 < n ∧ 3 ≤ d.
Definition valid_bid (n d x y : Z) : Prop := 2 ≤ x ≤ d ∧ 1 ≤ y ≤ n.
Definition valid_hand (n d : Z) (hand : list Z) : Prop :=
  len hand ≤ n ∧ Forall (λ die, 1 ≤ die ≤ d) hand.

(** [sum_from lo cnt f] is [f lo + f (lo+1) + ... + f (lo+cnt-1)], and
    [big_sum lo hi f] the sum of [f k] over [k] in [[lo, hi]]. *)
Fixpoint sum_from (lo : Z) (cnt : nat) (f : Z → Q) : Q :=
  match cnt with
  | O => 0
  | S c => f lo + sum_from (lo + 1) c f
  end%Q.

Definition big_sum (lo hi : Z) (f : Z → Q) : Q :=
  sum_from lo (Z.to_nat (hi - lo + 1)) f.

(** [C(N, k) · p^k · q^(N-k)] *)
Definition binomial_term (N : Z) (p q : Q) (k : Z) : Q :=
  (inject_Z (comb N k) * p ^ k * q ^ (N - k))%Q.

(** The two-level conditioning sum of section 4.1, steps 4 and 5. *)
Definition conditioning_sum (needed externalCount d : Z) : Q :=
  big_sum 0 externalCount (λ i,
    let inner :=
      if decide (i >= needed) then 1%Q
      else big_sum (needed - i) (externalCount - i)
             (binomial_term (externalCount - i)
                (1 / inject_Z (d - 1))
                (inject_Z (d - 2) / inject_Z (d - 1))) in
    (binomial_term externalCount
       (1 / inject_Z d) (inject_Z (d - 1) / inject_Z d) i * inner)%Q).

(** The second level of the conditioning: given [i] wildcards, the
    probability that the other dice bring the missing [needed - i] (the
    inner factor of [conditioning_sum]). *)
Definition given_wildcards (d needed externalCount i : Z) : Q :=
  if decide (i >= needed) then 1%Q
  else big_sum (needed - i) (externalCount - i)
         (binomial_term (externalCount - i)
            (1 / inject_Z (d - 1)) (inject_Z (d - 2) / inject_Z (d - 1))).

(** The cell of the table for the bid of count [y] on face [x]: row index
    [y - 1], column index [x - 2]. *)
Definition cell (table : list (list Q)) (y x : Z) : option Q :=
  row ← table !! Z.to_nat (y - 1); row !! Z.to_nat (x - 2).

(** The three legality policies of section 4.3, for a candidate bid
    [(x, y)] after the previous bid [(prevX, prevY)]. *)
Inductive policy : Set := Mode_I | Mode_II | Mode_III.

Definition legal (m : policy) (prevX prevY x y : Z) : Prop :=
  match m with
  | Mode_I => y > prevY ∨ (x > prevX ∧ y = prevY)
  | Mode_II => x > prevX ∨ (y > prevY ∧ x = prevX)
  | Mode_III => (x > prevX ∧ y = prevY) ∨ (y > prevY ∧ x = prevX)
  end.

#[global] Instance legal_dec m prevX prevY x y :
  Decision (legal m prevX prevY x y) :=
  match m with
  | Mode_I => decide (y > prevY ∨ (x > prevX ∧ y = prevY))
  | Mode_II => decide (x > prevX ∨ (y > prevY ∧ x = prevX))
  | Mode_III => decide ((x > prevX ∧ y = prevY) ∨ (y > prevY ∧ x = prevX))
  end.

(** The result of the selector under one policy: probability and action. *)
Definition best_of (m : policy) (b : best) : Q * string :=
  match m with
  | Mode_I => (best_I_p b, best_I_act b)
  | Mode_II => (best_II_p b, best_II_act b)
  | Mode_III => (best_III_p b, best_III_act b)
  end.

(** Cell [(y', x')] is met before cell [(y, x)] by a scan with the count
    ascending in the outer loop and the face ascending in the inner one. *)
Definition scanned_before (y' x' y x : Z) : Prop :=
  y' < y ∨ (y' = y ∧ x' < x).

(** The update of one policy's result by the cell of the bid [(x, y)]. *)
Definition consider (m : policy) (prevX prevY y x : Z) (c : Q)
    (r : Q * string) : Q * string :=
  if decide ((c > r.1)%Q ∧ legal m prevX prevY x y) then (c, bid_action x y)
  else r.

(** [best_among m prevX prevY baseline table seen r]: among the cells that
    have been [seen], the result [r] is the challenge at the baseline
    probability, which no legal cell strictly exceeds; or it is a legal bid
    whose cell strictly exceeds the baseline, is the highest of the legal
    cells, and is strictly higher than every legal cell scanned before it. *)
Definition best_among (m : policy) (prevX prevY : Z) (baseline : Q)
    (table : list (list Q)) (seen : Z → Z → Prop) (r : Q * string) : Prop :=
  (r = (baseline, call_previous_player) ∧
   ∀ y x c, 1 ≤ y → 2 ≤ x → seen y x → cell table y x = Some c →
            legal m prevX prevY x y → (c <= baseline)%Q)
  ∨
  (∃ y x, 1 ≤ y ∧ 2 ≤ x ∧ seen y x ∧ cell table y x = Some r.1 ∧
          r.2 = bid_action x y ∧ legal m prevX prevY x y ∧
          (baseline < r.1)%Q ∧
          ∀ y' x' c, 1 ≤ y' → 2 ≤ x' → seen y' x' →
                     cell table y' x' = Some c → legal m prevX prevY x' y' →
                     (c <= r.1)%Q ∧
                     (scanned_before y' x' y x → (c < r.1)%Q)).

(** The final result of a policy: [best_among] all the cells of the table. *)
Definition challenge_or_first_best (m : policy) (prevX prevY : Z)
    (baseline : Q) (table : list (list Q)) (r : Q * string) : Prop :=
  best_among m prevX prevY baseline table (λ _ _, True) r.

(** A table of [totalDice] rows and [faceCount - 1] columns. *)
Definition has_shape (n d : Z) (table : list (list Q)) : Prop :=
  len table = n ∧ Forall (λ row, len row = d - 1) table.

(** The cell of the bid [(x, y)] holds what the calculator returns for it. *)
Definition filled (n d : Z) (hand : list Z) (table : list (list Q))
    (y x : Z) : Prop :=
  ∃ p, predict_probability x y n d hand = Ok p ∧ cell table y x = Some p.

(** The cells of the table, as pairs (count, face). *)
Definition table_cells (n d : Z) : list (Z * Z) :=
  y ← range 1 (n + 1); x ← range 2 (d + 1); [(y, x)].

(** The set of the cells of the table that a policy allows. *)
Definition legal_cells (m : policy) (prevX prevY n d : Z) : gset (Z * Z) :=
  list_to_set (filter (λ c, legal m prevX prevY c.2 c.1) (table_cells n d)).

(** ** The rest of the program *)

(** [compare_prediction_vs_simulation(x, y, n, d, hand, iterations)], lines
    84-101; the three [print]s are not modelled. *)
Definition compare_prediction_vs_simulation (x y n d : Z) (hand : list Z)
    (iterations : Z) (rolls : Z → Z → Z) : result Q :=
  prediction_p ← predict_probability x y n d hand;
  simulation_p ← simulate_probability x y n d hand iterations rolls;
  let difference := Qabs (prediction_p - simulation_p) in
  Ok difference.

(** [max(l)]: [ValueError] on an empty list, and otherwise the first of the
    greatest elements. *)
Definition py_max (l : list Q) : result Q :=
  match l with
  | [] => Raise ValueError
  | q :: l' => Ok (fold_left (λ m v, if decide (v > m)%Q then v else m) l' q)
  end.

(** What [random] supplies to [random_comparison]: for round [i] the face
    and the count of the bid, the dice of the hand and the rolls of the
    simulator. *)
Record draws : Type := Draws {
  draw_x : Z → Z;
  draw_y : Z → Z;
  draw_hand : Z → Z → Z;
  draw_rolls : Z → Z → Z → Z
}.

(** [random_comparison(rounds, iterations)], lines 103-122.  The function
    prints the greatest difference; the model returns it. *)
Definition random_comparison (rounds iterations : Z) (o : draws) : result Q :=
  results ← for_each (range 0 rounds) (λ i results,
    let d := 6 in
    x ← randint 2 d (draw_x o i);
    y ← randint 1 15 (draw_y o i);
    let n := 15 in
    hand ← for_each (range 0 5) (λ die hand,
              r ← randint 1 d (draw_hand o i die); Ok (hand ++ [r])) [];
    computation ←
      compare_prediction_vs_simulation x y n d hand iterations (draw_rolls o i);
    Ok (results ++ [computation])) [];
  py_max results.

(** [test_random_optimal_next_move()], lines 186-196, on the values drawn
    for the bid and for the five dice of the hand. *)
Definition test_random_optimal_next_move (drawn_x drawn_y : Z)
    (drawn_hand : Z → Z) : result decision :=
  let d := 6 in
  x ← randint 2 d drawn_x;
  y ← randint 1 15 drawn_y;
  let n := 15 in
  hand ← for_each (range 0 5) (λ die hand,
            r ← randint 1 d (drawn_hand die); Ok (hand ++ [r])) [];
  compute_optimal_next_move x y n d hand.

(** ** The trials of the simulator *)

(** The test of line 75 on the dice of one trial. *)
Definition trial_succeeds (x ext_y : Z) (dice : list Z) : Prop :=
  len (filter (λ die, die = x) dice)
  + len (filter (λ die, die = wildcard_value) dice) >= ext_y.

(** The dice rolled in one trial: line 72. *)
Definition dice_of (ext_n : Z) (draw : Z → Z) : list Z :=
  draw <$> range 0 ext_n.

(** The number of successful trials among the first [iterations]. *)
Definition successes (x ext_y ext_n iterations : Z) (rolls : Z → Z → Z) : Z :=
  len (filter (λ i, trial_succeeds x ext_y (dice_of ext_n (rolls i)))
         (range 0 iterations)).

(** One trial of the simulator, lines 72-77: the body of its main loop, on
    the state [(bid_success_count, wildcard_buckets)]. *)
Definition simulate_trial (x d ext_n ext_y : Z) (rolls : Z → Z → Z) (i : Z)
    (st : Z * list Z) : result (Z * list Z) :=
  let '(bid_success_count, wildcard_buckets) := st in
  dice ← for_each (range 0 ext_n) (λ die dice,
            r ← randint 1 d (rolls i die); Ok (dice ++ [r])) [];
  let x_count := len (filter (λ die, die = x) dice) in
  let wildcard_count := len (filter (λ die, die = wildcard_value) dice) in
  if decide (x_count + wildcard_count >= ext_y) then
    old ← getitem wildcard_buckets wildcard_count;
    wildcard_buckets ← setitem wildcard_buckets wildcard_count (old + 1);
    Ok (bid_success_count + 1, wildcard_buckets)
  else Ok (bid_success_count, wildcard_buckets).

(** A successful trial with ten wildcards or more: its bucket is missing. *)
Definition overflows (x ext_y ext_n : Z) (rolls : Z → Z → Z) (i : Z) : Prop :=
  trial_succeeds x ext_y (dice_of ext_n (rolls i)) ∧
  len (filter (λ die, die = wildcard_value) (dice_of ext_n (rolls i))) >= 10.

(** ** Binomial coefficients by their quotients *)

(** [comb_row_from n k c cnt] lists [cnt] coefficients of the row [n] from
    [c = C(n, k)] on, each one from the one before:
    [C(n, k+1) = C(n, k) * (n - k) / (k + 1)]. *)
Fixpoint comb_row_from (n k c : Z) (cnt : nat) : list Z :=
  match cnt with
  | O => []
  | S cnt' => c :: comb_row_from n (k + 1) (c * (n - k) / (k + 1)) cnt'
  end.

(** The row [C(n, 0), ..., C(n, n)]. *)
Definition comb_row (n : Z) : list Z := comb_row_from n 0 1 (Z.to_nat (n + 1)).

(** [m] returns, or raises [e] and no other exception. *)
Definition may_raise {A} (e : exn) (m : result A) : Prop :=
  m = Raise e ∨ ∃ a, m = Ok a.

(** Concrete scenarios are checked by evaluation. *)
Ltac concrete :=
  repeat match goal with
  | |- _ ∧ _ => split
  | |- valid_config _ _ => split
  | |- valid_bid _ _ _ _ => split
  | |- valid_hand _ _ _ => split
  | |- Forall _ _ =>
      repeat first [apply Forall_nil_2 | apply Forall_cons_2; [lia|]]
  | |- _ => by vm_compute
  end.

(** ** Loops and list accesses *)

Lemma range_nil a b : b ≤ a → range a b = [].
Proof. intros. unfold range. apply seqZ_nil. lia. Qed.

Lemma range_cons a b : a < b → range a b = a :: range (a + 1) b.
Proof.
  intros. unfold range. rewrite seqZ_cons by lia.
  f_equal. f_equal; lia.
Qed.

(** The invariant rule of a [for] loop over [range(a, b)]. *)
Lemma for_range_inv {S} (I : Z → S → Prop) a b (body : Z → S → result S) s :
  a ≤ b → I a s →
  (∀ i s, a ≤ i < b → I i s → ∃ s', body i s = Ok s' ∧ I (i + 1) s') →
  ∃ s', for_each (range a b) body s = Ok s' ∧ I b s'.
Proof.
  intros Hab. remember (Z.to_nat (b - a)) as k eqn:Hk.
  revert a s Hab Hk. induction k as [|k IH]; intros a s Hab Hk H0 Hstep.
  - assert (a = b) as -> by lia. rewrite range_nil by lia. eauto.
  - rewrite range_cons by lia. simpl.
    destruct (Hstep a s) as (s1 & -> & H1); [lia|done|]. simpl.
    apply IH; [lia|lia|done|]. intros i s2 ??. apply Hstep; [lia|done].
Qed.

Lemma index_of_in_range n k : 0 ≤ k < Z.of_nat n → index_of n k = Some (Z.to_nat k).
Proof. intros. unfold index_of. by rewrite decide_True. Qed.

Lemma getitem_lookup {A} (l : list A) k a :
  0 ≤ k → l !! Z.to_nat k = Some a → getitem l k = Ok a.
Proof.
  intros Hk Hl. unfold getitem.
  rewrite index_of_in_range.
  - simpl. by rewrite Hl.
  - apply lookup_lt_Some in Hl. lia.
Qed.

Lemma setitem_insert {A} (l : list A) k v :
  0 ≤ k < len l → setitem l k v = Ok (<[Z.to_nat k:=v]> l).
Proof. intros. unfold setitem. by rewrite index_of_in_range. Qed.

Lemma truediv_ok a b : b ≠ 0 → truediv a b = Ok (inject_Z a / inject_Z b)%Q.
Proof. intros. unfold truediv. by rewrite decide_False. Qed.

Lemma for_each_raise {S} i l (body : Z → S → result S) s e :
  body i s = Raise e → for_each (i :: l) body s = Raise e.
Proof. intros H. simpl. by rewrite H. Qed.

Lemma range_snoc a b : a ≤ b → range a (b + 1) = range a b ++ [b].
Proof.
  intros. unfold range.
  replace (b + 1 - a) with ((b - a) + 1) by lia.
  rewrite seqZ_app by lia. f_equal.
  rewrite seqZ_cons, seqZ_nil by lia. f_equal. lia.
Qed.

(** A loop raises when one of its steps does on every state it can meet. *)
Lemma for_each_raises {S} (Inv : S → Prop) l (body : Z → S → result S) s e i :
  Inv s → i ∈ l →
  (∀ s, Inv s → body i s = Raise e) →
  (∀ j s, j ∈ l → Inv s →
     body j s = Raise e ∨ ∃ s', body j s = Ok s' ∧ Inv s') →
  for_each l body s = Raise e.
Proof.
  intros Hs Hi Hraise Hstep. revert s Hs.
  induction l as [|j l IH]; intros s Hs; [by apply elem_of_nil in Hi|].
  simpl. destruct (decide (j = i)) as [->|Hne].
  { by rewrite Hraise. }
  destruct (Hstep j s) as [->|(s' & -> & Hs')]; [left|done|done|].
  simpl. apply IH; [|by intros; apply Hstep; [right|]|done].
  apply elem_of_cons in Hi as [?|?]; [congruence|done].
Qed.

(** A loop whose steps return or raise [e] returns or raises [e]. *)
Lemma for_each_may_raise {S} (Inv : S → Prop) l (body : Z → S → result S) s e :
  Inv s →
  (∀ j s, j ∈ l → Inv s →
     body j s = Raise e ∨ ∃ s', body j s = Ok s' ∧ Inv s') →
  for_each l body s = Raise e ∨ ∃ s', for_each l body s = Ok s' ∧ Inv s'.
Proof.
  revert s. induction l as [|j l IH]; intros s Hs Hstep; [right; eauto|].
  simpl. destruct (Hstep j s) as [->|(s' & -> & Hs')]; [left|done|by left|].
  simpl. apply IH; [done|]. intros. apply Hstep; [by right|done].
Qed.

(** ** Sums *)

(** A loop that adds [t k] at every step computes a sum. *)
Lemma for_each_sum lo cnt (body : Z → Q → result Q) (t : Z → Q) acc :
  (∀ k a, lo ≤ k < lo + cnt → ∃ r, body k a = Ok r ∧ r == a + t k) →
  ∃ r, for_each (seqZ lo cnt) body acc = Ok r ∧
       r == acc + sum_from lo (Z.to_nat cnt) t.
Proof.
  remember (Z.to_nat cnt) as c eqn:Hc.
  revert lo cnt acc Hc. induction c as [|c IH]; intros lo cnt acc Hc Hbody.
  - rewrite seqZ_nil by lia. simpl. exists acc. split; [done|ring].
  - rewrite seqZ_cons by lia. simpl.
    destruct (Hbody lo acc) as (r1 & -> & Hr1); [lia|]. simpl.
    destruct (IH (Z.succ lo) (Z.pred cnt) r1) as (r & Hr & Hsum); [lia| |].
    { intros k a ?. apply Hbody. lia. }
    exists r. split; [done|].
    rewrite Hsum, Hr1. replace (Z.succ lo) with (lo + 1) by lia. ring.
Qed.

Lemma for_range_sum lo hi (body : Z → Q → result Q) (t : Z → Q) acc :
  (∀ k a, lo ≤ k ≤ hi → ∃ r, body k a = Ok r ∧ r == a + t k) →
  ∃ r, for_each (range lo (hi + 1)) body acc = Ok r ∧
       r == acc + big_sum lo hi t.
Proof.
  intros Hbody. unfold range, big_sum.
  replace (hi - lo + 1) with (hi + 1 - lo) by lia.
  apply for_each_sum. intros k a ?. apply Hbody. lia.
Qed.

(** ** Finite sums of rationals *)

Section sums.
Implicit Types (f g : Z → Q) (lo hi : Z) (c : nat).
Local Open Scope Q_scope.

Lemma sum_from_ext f g lo c :
  (∀ k, (lo ≤ k < lo + Z.of_nat c)%Z → f k == g k) →
  sum_from lo c f == sum_from lo c g.
Proof.
  revert lo. induction c as [|c IH]; intros lo H; simpl; [reflexivity|].
  rewrite (H lo) by lia. rewrite (IH (lo + 1)%Z); [reflexivity|].
  intros k ?. apply H. lia.
Qed.

Lemma sum_from_le f g lo c :
  (∀ k, (lo ≤ k < lo + Z.of_nat c)%Z → f k <= g k) →
  sum_from lo c f <= sum_from lo c g.
Proof.
  revert lo. induction c as [|c IH]; intros lo H; simpl; [apply Qle_refl|].
  apply Qplus_le_compat; [apply H; lia|]. apply IH. intros k ?. apply H. lia.
Qed.

Lemma sum_from_nonneg f lo c :
  (∀ k, (lo ≤ k < lo + Z.of_nat c)%Z → 0 <= f k) → 0 <= sum_from lo c f.
Proof.
  revert lo. induction c as [|c IH]; intros lo H; simpl; [apply Qle_refl|].
  assert (0 <= f lo) by (apply H; lia).
  assert (0 <= sum_from (lo + 1)%Z c f) by (apply IH; intros k ?; apply H; lia).
  lra.
Qed.

Lemma sum_from_app f lo c1 c2 :
  sum_from lo (c1 + c2) f ==
  sum_from lo c1 f + sum_from (lo + Z.of_nat c1)%Z c2 f.
Proof.
  revert lo. induction c1 as [|c1 IH]; intros lo.
  - simpl. rewrite Z.add_0_r. ring.
  - cbn [Nat.add sum_from]. rewrite IH.
    replace (lo + 1 + Z.of_nat c1)%Z with (lo + Z.of_nat (S c1))%Z by lia. ring.
Qed.

Lemma sum_from_shift f lo c :
  sum_from (lo + 1)%Z c f = sum_from lo c (λ k, f (k + 1)%Z).
Proof.
  revert lo. induction c as [|c IH]; intros lo; simpl; [done|].
  by rewrite IH.
Qed.

Lemma sum_from_scal a f lo c :
  sum_from lo c (λ k, a * f k) == a * sum_from lo c f.
Proof.
  revert lo. induction c as [|c IH]; intros lo; simpl; [ring|].
  rewrite IH. ring.
Qed.

Lemma sum_from_plus f g lo c :
  sum_from lo c (λ k, f k + g k) == sum_from lo c f + sum_from lo c g.
Proof.
  revert lo. induction c as [|c IH]; intros lo; simpl; [ring|].
  rewrite IH. ring.
Qed.

Lemma big_sum_empty f lo hi : (hi < lo)%Z → big_sum lo hi f = 0.
Proof. intros. unfold big_sum. by replace (Z.to_nat (hi - lo + 1)%Z) with O by lia. Qed.

Lemma big_sum_nonneg f lo hi :
  (∀ k, (lo ≤ k ≤ hi)%Z → 0 <= f k) → 0 <= big_sum lo hi f.
Proof. intros H. apply sum_from_nonneg. intros k ?. apply H. lia. Qed.

Lemma big_sum_le f g lo hi :
  (∀ k, (lo ≤ k ≤ hi)%Z → f k <= g k) → big_sum lo hi f <= big_sum lo hi g.
Proof. intros H. apply sum_from_le. intros k ?. apply H. lia. Qed.

Lemma big_sum_zero f lo hi :
  (∀ k, (lo ≤ k ≤ hi)%Z → f k == 0) → big_sum lo hi f == 0.
Proof.
  intros H. unfold big_sum.
  rewrite (sum_from_ext f (λ k, 0 * 0)).
  - rewrite sum_from_scal. ring.
  - intros k ?. rewrite H by lia. ring.
Qed.

(** Dropping the first terms of a sum of non-negative terms makes it
    smaller. *)
Lemma big_sum_suffix_le f lo lo' hi :
  (lo ≤ lo')%Z → (∀ k, (lo ≤ k ≤ hi)%Z → 0 <= f k) →
  big_sum lo' hi f <= big_sum lo hi f.
Proof.
  intros Hlo Hf. destruct (decide (hi < lo')%Z) as [Hlt|Hge].
  - rewrite big_sum_empty by done. by apply big_sum_nonneg.
  - unfold big_sum.
    replace (Z.to_nat (hi - lo + 1)%Z)
      with (Z.to_nat (lo' - lo)%Z + Z.to_nat (hi - lo' + 1)%Z)%nat by lia.
    rewrite sum_from_app.
    replace (lo + Z.of_nat (Z.to_nat (lo' - lo)))%Z with lo' by lia.
    assert (0 <= sum_from lo (Z.to_nat (lo' - lo)%Z) f).
    { apply sum_from_nonneg. intros k ?. apply Hf. lia. }
    lra.
Qed.
End sums.

(** ** Binomial coefficients and the binomial theorem *)

Lemma binom_0_r n : binom n 0 = 1%nat.
Proof. by destruct n. Qed.

Lemma binom_gt n k : (n < k)%nat → binom n k = 0%nat.
Proof.
  revert k. induction n as [|n IH]; intros [|k] ?; simpl; try lia.
  rewrite !IH by lia. done.
Qed.

Lemma comb_0_r N : comb N 0 = 1.
Proof. unfold comb. simpl. by rewrite binom_0_r. Qed.

Lemma comb_gt N k : 0 ≤ N < k → comb N k = 0.
Proof. intros. unfold comb. rewrite binom_gt by lia. done. Qed.

Lemma comb_nonneg N k : 0 ≤ comb N k.
Proof. unfold comb. lia. Qed.

Lemma comb_pascal N k :
  0 ≤ N → 0 ≤ k → comb (N + 1) (k + 1) = comb N k + comb N (k + 1).
Proof.
  intros. unfold comb.
  replace (Z.to_nat (N + 1)) with (S (Z.to_nat N)) by lia.
  replace (Z.to_nat (k + 1)) with (S (Z.to_nat k)) by lia.
  simpl. lia.
Qed.

Section binomial.
Local Open Scope Q_scope.
Variables p q : Q.

Lemma Qpower_succ (a : Q) (k : Z) : (0 ≤ k)%Z → a ^ (k + 1) == a * a ^ k.
Proof.
  intros Hk. destruct (decide (k = 0%Z)) as [->|Hne].
  - simpl. ring.
  - rewrite Qpower_plus' by lia. rewrite Qpower_1_r. ring.
Qed.

Lemma binomial_term_0 N :
  (0 ≤ N)%Z → binomial_term (N + 1) p q 0 == q * binomial_term N p q 0.
Proof.
  intros. unfold binomial_term. rewrite !comb_0_r, !Z.sub_0_r.
  rewrite Qpower_succ by done. simpl. ring.
Qed.

Lemma binomial_term_S N k :
  (0 ≤ N)%Z → (0 ≤ k)%Z →
  binomial_term (N + 1) p q (k + 1) ==
  p * binomial_term N p q k + q * binomial_term N p q (k + 1).
Proof.
  intros HN Hk. unfold binomial_term.
  rewrite comb_pascal by done. rewrite inject_Z_plus.
  replace (N + 1 - (k + 1))%Z with (N - k)%Z by lia.
  rewrite (Qpower_succ p) by done.
  destruct (decide (k < N)%Z) as [Hlt|Hge].
  - replace (N - k)%Z with (N - (k + 1) + 1)%Z by lia.
    rewrite (Qpower_succ q) by lia. ring.
  - rewrite (comb_gt N (k + 1)) by lia. ring.
Qed.

Theorem binomial_theorem (N : nat) :
  sum_from 0 (S N) (binomial_term (Z.of_nat N) p q) == (p + q) ^ Z.of_nat N.
Proof.
  induction N as [|N IH].
  - cbn [sum_from]. unfold binomial_term. rewrite comb_0_r.
    change (Z.of_nat 0 - 0)%Z with 0%Z. change (Z.of_nat 0) with 0%Z.
    cbn [Qpower]. change (inject_Z 1) with 1. ring.
  - replace (Z.of_nat (S N)) with (Z.of_nat N + 1)%Z by lia.
    rewrite Qpower_succ by lia. rewrite <- IH.
    set (t := binomial_term (Z.of_nat N) p q).
    cbn [sum_from]. rewrite binomial_term_0 by lia. fold t.
    assert (sum_from (0 + 1) (S N) (binomial_term (Z.of_nat N + 1) p q)
            == p * sum_from 0 (S N) t + q * sum_from (0 + 1) (S N) t) as ->.
    { rewrite !sum_from_shift.
      rewrite <- !sum_from_scal, <- sum_from_plus.
      apply sum_from_ext. intros k ?. apply binomial_term_S; lia. }
    assert (sum_from (0 + 1) (S N) t == sum_from (0 + 1) N t) as ->.
    { replace (S N) with (N + 1)%nat by lia. rewrite sum_from_app.
      simpl. unfold t, binomial_term at 2.
      rewrite comb_gt by lia. ring. }
    cbn [sum_from]. ring.
Qed.

Lemma binomial_sum N :
  (0 ≤ N)%Z → big_sum 0 N (binomial_term N p q) == (p + q) ^ N.
Proof.
  intros. unfold big_sum.
  replace (Z.to_nat (N - 0 + 1)) with (S (Z.to_nat N)) by lia.
  rewrite <- (Z2Nat.id N) at 2 3 by done. apply binomial_theorem.
Qed.

Lemma binomial_term_nonneg N k :
  0 <= p → 0 <= q → 0 <= binomial_term N p q k.
Proof.
  intros. unfold binomial_term.
  repeat apply Qmult_le_0_compat; try by apply Qpower_0_le.
  change 0 with (inject_Z 0). rewrite <- Zle_Qle. apply comb_nonneg.
Qed.

(** A tail of the binomial distribution is a probability. *)
Lemma binomial_tail_le_1 N lo :
  0 <= p → 0 <= q → p + q == 1 → (0 ≤ lo)%Z →
  big_sum lo N (binomial_term N p q) <= 1.
Proof.
  intros Hp Hq Hpq Hlo. destruct (decide (N < 0)%Z).
  - rewrite big_sum_empty by lia. lra.
  - eapply Qle_trans.
    + apply (big_sum_suffix_le _ 0 lo); [done|].
      intros. by apply binomial_term_nonneg.
    + rewrite binomial_sum by lia. rewrite Hpq, Qpower_1. lra.
Qed.
End binomial.

(** ** Floats: conversions and powers *)

Lemma binom_succ_le n k : (binom n k ≤ binom (S n) k)%nat.
Proof. destruct k; simpl; [by rewrite binom_0_r|lia]. Qed.

Lemma binom_mono n m k : (n ≤ m)%nat → (binom n k ≤ binom m k)%nat.
Proof.
  induction 1 as [|m _ IH]; [done|].
  etransitivity; [exact IH|apply binom_succ_le].
Qed.

Lemma comb_mono N M k : 0 ≤ N ≤ M → comb N k ≤ comb M k.
Proof. intros. unfold comb. apply inj_le, binom_mono. lia. Qed.

(** Each coefficient of a row from the one before. *)
Lemma binom_step n k :
  (Z.of_nat k + 1) * Z.of_nat (binom n (S k)) =
  (Z.of_nat n - Z.of_nat k) * Z.of_nat (binom n k).
Proof.
  revert k. induction n as [|n IH]; intros k.
  - destruct k; simpl; lia.
  - destruct k as [|k].
    + pose proof (IH O) as IH0. rewrite binom_0_r in IH0.
      change (binom (S n) 1) with (binom n 0 + binom n 1)%nat.
      rewrite !binom_0_r. lia.
    + pose proof (IH k) as IH1. pose proof (IH (S k)) as IH2.
      change (binom (S n) (S (S k)))
        with (binom n (S k) + binom n (S (S k)))%nat.
      change (binom (S n) (S k)) with (binom n k + binom n (S k))%nat.
      rewrite !Nat2Z.inj_add, !Nat2Z.inj_succ in *. nia.
Qed.

Lemma comb_step n k :
  0 ≤ n → 0 ≤ k → comb n k * (n - k) / (k + 1) = comb n (k + 1).
Proof.
  intros Hn Hk. unfold comb.
  replace (Z.to_nat (k + 1)) with (S (Z.to_nat k)) by lia.
  pose proof (binom_step (Z.to_nat n) (Z.to_nat k)) as Hstep.
  rewrite !Z2Nat.id in Hstep by done.
  rewrite (Z.mul_comm _ (n - k)), <- Hstep, Z.mul_comm.
  apply Z.div_mul. lia.
Qed.

Lemma comb_row_from_spec n k cnt :
  0 ≤ n → 0 ≤ k →
  comb_row_from n k (comb n k) cnt = comb n <$> seqZ k (Z.of_nat cnt).
Proof.
  intros Hn. revert k. induction cnt as [|cnt IH]; intros k Hk; [done|].
  rewrite seqZ_cons by lia. cbn [comb_row_from fmap list_fmap]. f_equal.
  rewrite comb_step by done. rewrite IH by lia.
  do 2 f_equal; lia.
Qed.

Lemma comb_row_lookup n k :
  0 ≤ n → Z.of_nat k ≤ n → comb_row n !! k = Some (comb n (Z.of_nat k)).
Proof.
  intros Hn Hk. unfold comb_row.
  replace (comb_row_from n 0 1) with (comb_row_from n 0 (comb n 0))
    by (by rewrite comb_0_r).
  rewrite comb_row_from_spec by done.
  rewrite list_lookup_fmap, lookup_seqZ_lt by lia. done.
Qed.

(** The coefficients of 1029 dice convert to floats... *)
Lemma comb_row_1029 :
  forallb (λ c, c <? float_limit) (comb_row 1029) = true.
Proof. vm_compute. reflexivity. Qed.

(** ... and the central coefficient of 1030 dice does not. *)
Lemma comb_row_1030 :
  match comb_row 1030 !! 515%nat with
  | Some c => float_limit <=? c
  | None => false
  end = true.
Proof. vm_compute. reflexivity. Qed.

Lemma comb_small N k : 0 ≤ N ≤ 1029 → 0 ≤ comb N k < float_limit.
Proof.
  intros HN. split; [apply comb_nonneg|].
  assert (1 < float_limit) as Hone by (by vm_compute).
  destruct (decide (k < 0)) as [Hneg|Hk].
  { unfold comb. replace (Z.to_nat k) with O by lia. by rewrite binom_0_r. }
  destruct (decide (1029 < k)) as [Hbig|Hle].
  { rewrite comb_gt by lia. lia. }
  apply Z.le_lt_trans with (comb 1029 k); [apply comb_mono; lia|].
  pose proof comb_row_1029 as Hrow. rewrite forallb_forall in Hrow.
  apply Z.ltb_lt, Hrow, list_elem_of_In, list_elem_of_lookup.
  exists (Z.to_nat k). rewrite comb_row_lookup by lia.
  by rewrite Z2Nat.id by lia.
Qed.

Lemma comb_large N : 1030 ≤ N → float_limit ≤ comb N 515.
Proof.
  intros HN. apply Z.le_trans with (comb 1030 515); [|apply comb_mono; lia].
  pose proof comb_row_1030 as Hrow.
  rewrite comb_row_lookup in Hrow by lia. by apply Z.leb_le.
Qed.

Lemma float_limit_pos : 1029 < float_limit.
Proof. by vm_compute. Qed.

Lemma float_of_int_ok z :
  Z.abs z < float_limit → float_of_int z = Ok (inject_Z z).
Proof. intros. unfold float_of_int. by rewrite decide_False by lia. Qed.

Lemma float_of_int_overflow z :
  float_limit ≤ Z.abs z → float_of_int z = Raise OverflowError.
Proof. intros. unfold float_of_int. by rewrite decide_True. Qed.

Lemma int_times_float_ok c f :
  Z.abs c < float_limit → int_times_float c f = Ok (inject_Z c * f)%Q.
Proof. intros. unfold int_times_float. by rewrite float_of_int_ok. Qed.

(** The powers of a probability are probabilities. *)
Lemma Qpower_unit (b : Q) (e : Z) :
  (0 <= b <= 1)%Q → 0 ≤ e → (0 <= b ^ e <= 1)%Q.
Proof.
  intros Hb He. split; [apply Qpower_0_le; tauto|].
  revert e He. apply natlike_ind; [simpl; lra|].
  intros e He IH. unfold Z.succ. rewrite Qpower_succ by done.
  assert (0 <= b ^ e)%Q by (apply Qpower_0_le; tauto).
  apply Qle_trans with (1 * 1)%Q; [|lra].
  apply Qmult_le_compat_nonneg; lra.
Qed.

Lemma float_pow_unit (b : Q) (e : Z) :
  (0 <= b <= 1)%Q → 0 ≤ e < float_limit → float_pow b e = Ok (b ^ e)%Q.
Proof.
  intros Hb He. unfold float_pow.
  rewrite decide_False by lia. rewrite decide_False by lia.
  cbn zeta. rewrite decide_False; [done|].
  destruct (Qpower_unit b e Hb ltac:(lia)) as [Hlo Hhi].
  rewrite Qabs_pos by done. apply Qlt_not_le.
  apply Qle_lt_trans with 1%Q; [done|].
  change 1%Q with (inject_Z 1). rewrite <- Zlt_Qlt.
  pose proof float_limit_pos. lia.
Qed.

Lemma float_pow_ok (b : Q) (e : Z) :
  (0 <= b <= 1)%Q → 0 ≤ e ≤ 1029 → float_pow b e = Ok (b ^ e)%Q.
Proof.
  intros Hb He. apply float_pow_unit; [done|].
  pose proof float_limit_pos. lia.
Qed.

(** Whatever the exponent, the power of a probability returns or
    overflows. *)
Lemma float_pow_may_raise (b : Q) (e : Z) :
  0 ≤ e → may_raise OverflowError (float_pow b e).
Proof.
  intros He. unfold float_pow, may_raise.
  repeat case_decide; try (by left); try (by right; eexists); lia.
Qed.

Lemma unit_fraction a b :
  0 ≤ a ≤ b → 0 < b → (0 <= inject_Z a / inject_Z b <= 1)%Q.
Proof.
  intros Ha Hb.
  assert (0 < inject_Z b)%Q as Hpos.
  { change 0%Q with (inject_Z 0). by rewrite <- Zlt_Qlt. }
  split.
  - apply Qle_shift_div_l; [done|]. rewrite Qmult_0_l.
    change 0%Q with (inject_Z 0). rewrite <- Zle_Qle. lia.
  - apply Qle_shift_div_r; [done|]. rewrite Qmult_1_l.
    rewrite <- Zle_Qle. lia.
Qed.

Lemma may_raise_ok {A} e (a : A) : may_raise e (Ok a).
Proof. right. by exists a. Qed.

Lemma may_raise_bind {A B} e (m : result A) (f : A → result B) :
  may_raise e m → (∀ a, m = Ok a → may_raise e (f a)) →
  may_raise e (m ≫= f).
Proof.
  intros [->|[a ->]] Hf; [by left|]. simpl. by apply Hf.
Qed.

Lemma may_raise_for_each {S} e l (body : Z → S → result S) s :
  (∀ j s, j ∈ l → may_raise e (body j s)) → may_raise e (for_each l body s).
Proof.
  revert s. induction l as [|j l IH]; intros s Hbody; [apply may_raise_ok|].
  simpl. apply may_raise_bind; [apply Hbody; left|].
  intros s' _. apply IH. intros j' s'' ?. apply Hbody. by right.
Qed.

(** ** The calculator *)

Lemma predict_probability_saturated x y n d hand :
  y - friendly x hand ≤ 0 → predict_probability x y n d hand = Ok 1%Q.
Proof. intros. unfold predict_probability. by rewrite decide_True. Qed.

(** With two faces or more and at most 1029 unseen dice no step of the
    calculator raises, and the loops compute the two-level sum. *)
Lemma predict_probability_sum x y n d hand :
  2 ≤ d → n - len hand ≤ 1029 → y - friendly x hand > 0 →
  ∃ p, predict_probability x y n d hand = Ok p ∧
       p == conditioning_sum (y - friendly x hand) (n - len hand) d.
Proof.
  intros Hd Hext Hneeded. unfold predict_probability, conditioning_sum.
  rewrite decide_False by lia.
  set (ext_n := n - len hand) in *. set (ext_y := y - friendly x hand) in *.
  match goal with |- ∃ p, _ ∧ p == big_sum _ _ ?T =>
    edestruct (for_range_sum 0 ext_n) with (t := T) (acc := 0%Q)
      as (p & Hp & Hsum); [|exists p; split; [exact Hp|]]
  end.
  - intros i a Hi. cbn beta zeta.
    rewrite !truediv_ok by lia. cbn [mbind result_bind].
    rewrite (float_pow_ok _ i) by (first [apply unit_fraction; lia|lia]).
    cbn [mbind result_bind].
    rewrite int_times_float_ok by (pose proof (comb_small ext_n i); lia).
    cbn [mbind result_bind].
    rewrite (float_pow_ok _ (ext_n - i))
      by (first [apply unit_fraction; lia|lia]).
    cbn [mbind result_bind].
    unfold binomial_term. change (inject_Z 1) with 1%Q.
    destruct (decide (i >= ext_y)) as [Hge|Hlt].
    + eexists. split; [done|]. by rewrite Qmult_1_r.
    + edestruct (for_range_sum (ext_y - i) (ext_n - i)) with (acc := 0%Q)
        as (c & -> & Hc).
      2:{ cbn [mbind result_bind]. eexists. split; [done|].
          by rewrite Hc, Qplus_0_l. }
      intros j b Hj. cbn beta zeta. cbn [mbind result_bind].
      rewrite (float_pow_ok _ j) by (first [apply unit_fraction; lia|lia]).
      cbn [mbind result_bind].
      rewrite int_times_float_ok
        by (pose proof (comb_small (ext_n - i) j); lia).
      cbn [mbind result_bind].
      rewrite (float_pow_ok _ (ext_n - i - j))
        by (first [apply unit_fraction; lia|lia]).
      cbn [mbind result_bind].
      eexists. split; [done|]. reflexivity.
  - by rewrite Hsum, Qplus_0_l.
Qed.

(** With 1030 unseen dice or more the product of line 34 cannot be formed:
    [math.comb(ext_n, 515)] is an int that no float holds, and the loop
    reaches [i = 515] unless an earlier step has raised the same error.  With
    one face the inner division would fail first, so the inner range must be
    empty there. *)
Lemma predict_probability_overflows x y n d hand :
  1 ≤ d → (d = 1 → y - friendly x hand > n - len hand) →
  y - friendly x hand > 0 → 1030 ≤ n - len hand →
  predict_probability x y n d hand = Raise OverflowError.
Proof.
  intros Hd Hone Hneeded Hext. unfold predict_probability.
  rewrite decide_False by lia.
  set (ext_n := n - len hand) in *. set (ext_y := y - friendly x hand) in *.
  apply (for_each_raises (λ _, True) _ _ _ _ 515); [done| | |].
  - unfold range. apply elem_of_seqZ. lia.
  - intros s _. cbn beta zeta. rewrite (truediv_ok 1 d) by lia.
    cbn [mbind result_bind].
    rewrite (float_pow_ok _ 515) by (first [apply unit_fraction; lia|lia]).
    cbn [mbind result_bind]. unfold int_times_float.
    rewrite float_of_int_overflow; [done|].
    pose proof (comb_large ext_n Hext). lia.
  - intros i s Hi _. unfold range in Hi. apply elem_of_seqZ in Hi.
    match goal with |- ?m = _ ∨ _ =>
      assert (may_raise OverflowError m) as [?|[a ?]];
        [|by left|right; by exists a]
    end.
    cbn beta zeta.
    rewrite (truediv_ok 1 d), (truediv_ok (d - 1) d) by lia.
    cbn [mbind result_bind].
    apply may_raise_bind; [apply float_pow_may_raise; lia|]. intros pa _.
    apply may_raise_bind.
    { unfold int_times_float, float_of_int.
      case_decide; [by left|apply may_raise_ok]. }
    intros m _.
    apply may_raise_bind; [apply float_pow_may_raise; lia|]. intros pb _.
    case_decide; [apply may_raise_ok|].
    apply may_raise_bind; [|intros; apply may_raise_ok].
    apply may_raise_for_each. intros j c Hj.
    unfold range in Hj. apply elem_of_seqZ in Hj.
    rewrite !truediv_ok by lia. cbn [mbind result_bind].
    apply may_raise_bind; [apply float_pow_may_raise; lia|]. intros pa' _.
    apply may_raise_bind.
    { unfold int_times_float, float_of_int.
      case_decide; [by left|apply may_raise_ok]. }
    intros m' _.
    apply may_raise_bind; [apply float_pow_may_raise; lia|]. intros pb' _.
    apply may_raise_ok.
Qed.

(** The scenario of the source file: five friendly-or-not dice in hand, ten
    unseen dice, five more needed. *)
Example predict_probability_scenario :
  ∃ p, predict_probability 4 7 15 6 [3; 4; 5; 2; 1] = Ok p ∧ p == 4195 # 19683.
Proof. eexists. split; [reflexivity|]. by vm_compute. Qed.

Example predict_probability_one_face :
  predict_probability 2 1 3 1 [] = Raise ZeroDivisionError.
Proof. reflexivity. Qed.

Example select_best_scenario :
  match compute_optimal_next_move 4 7 15 6 [3; 4; 5; 2; 1] with
  | Ok r => Some (best_I_act (optimal r), best_II_act (optimal r),
                  best_III_act (optimal r))
  | Raise _ => None
  end = Some ("call previous player", "bid(5, 1)", "call previous player").
Proof. vm_compute. reflexivity. Qed.

(** ** The two face distributions *)

Section faces.
Local Open Scope Q_scope.
Variable d : Z.

(** An unseen die is the wildcard with probability [1/d]. *)
Lemma wildcard_face_nonneg :
  (1 ≤ d)%Z → 0 <= 1 / inject_Z d ∧ 0 <= inject_Z (d - 1) / inject_Z d.
Proof.
  intros. assert (0 <= inject_Z d) by (change 0 with (inject_Z 0); rewrite <- Zle_Qle; lia).
  assert (0 <= inject_Z (d - 1)) by (change 0 with (inject_Z 0); rewrite <- Zle_Qle; lia).
  split; apply Qmult_le_0_compat; try apply Qinv_le_0_compat; done.
Qed.

Lemma wildcard_face_total :
  d ≠ 0%Z → 1 / inject_Z d + inject_Z (d - 1) / inject_Z d == 1.
Proof.
  intros. replace (d - 1)%Z with (d + -1)%Z by lia.
  rewrite inject_Z_plus. change (inject_Z (-1)) with (-(1)).
  field. change 0 with (inject_Z 0). rewrite inject_Z_injective. done.
Qed.

(** A die that is not the wildcard shows the bid's face with probability
    [1/(d-1)]. *)
Lemma target_face_nonneg :
  (2 ≤ d)%Z →
  0 <= 1 / inject_Z (d - 1) ∧ 0 <= inject_Z (d - 2) / inject_Z (d - 1).
Proof.
  intros. assert (0 <= inject_Z (d - 1)) by (change 0 with (inject_Z 0); rewrite <- Zle_Qle; lia).
  assert (0 <= inject_Z (d - 2)) by (change 0 with (inject_Z 0); rewrite <- Zle_Qle; lia).
  split; apply Qmult_le_0_compat; try apply Qinv_le_0_compat; done.
Qed.

Lemma target_face_total :
  d ≠ 1%Z → 1 / inject_Z (d - 1) + inject_Z (d - 2) / inject_Z (d - 1) == 1.
Proof.
  intros. replace (d - 2)%Z with (d - 1 + -1)%Z by lia.
  rewrite (inject_Z_plus (d - 1)). change (inject_Z (-1)) with (-(1)).
  field. change 0 with (inject_Z 0). rewrite inject_Z_injective. lia.
Qed.

Lemma conditioning_sum_given needed externalCount :
  conditioning_sum needed externalCount d =
  big_sum 0 externalCount (λ i,
    binomial_term externalCount
      (1 / inject_Z d) (inject_Z (d - 1) / inject_Z d) i *
    given_wildcards d needed externalCount i).
Proof. reflexivity. Qed.

Lemma given_wildcards_bounds needed externalCount i :
  (2 ≤ d)%Z → 0 <= given_wildcards d needed externalCount i <= 1.
Proof.
  intros Hd. destruct (target_face_nonneg Hd) as [Hp Hq].
  unfold given_wildcards. case_decide; [lra|]. split.
  - apply big_sum_nonneg. intros. by apply binomial_term_nonneg.
  - apply binomial_tail_le_1; [done|done|apply target_face_total; lia|lia].
Qed.

Lemma given_wildcards_antitone needed1 needed2 externalCount i :
  (2 ≤ d)%Z → (needed1 ≤ needed2)%Z →
  given_wildcards d needed2 externalCount i <=
  given_wildcards d needed1 externalCount i.
Proof.
  intros Hd Hle. destruct (target_face_nonneg Hd) as [Hp Hq].
  pose proof (given_wildcards_bounds needed2 externalCount i Hd) as Hb.
  unfold given_wildcards in *.
  destruct (decide (i >= needed1)%Z), (decide (i >= needed2)%Z);
    try lra; try lia.
  apply big_sum_suffix_le; [lia|]. intros. by apply binomial_term_nonneg.
Qed.

Lemma conditioning_sum_bounds needed externalCount :
  (2 ≤ d)%Z → (0 ≤ externalCount)%Z →
  0 <= conditioning_sum needed externalCount d <= 1.
Proof.
  intros Hd Hext. destruct (wildcard_face_nonneg ltac:(lia)) as [Hp Hq].
  rewrite conditioning_sum_given. split.
  - apply big_sum_nonneg. intros i _. apply Qmult_le_0_compat.
    + by apply binomial_term_nonneg.
    + by apply given_wildcards_bounds.
  - apply Qle_trans with (big_sum 0 externalCount
      (binomial_term externalCount
         (1 / inject_Z d) (inject_Z (d - 1) / inject_Z d))).
    + apply big_sum_le. intros i _.
      pose proof (given_wildcards_bounds needed externalCount i Hd).
      pose proof (binomial_term_nonneg (1 / inject_Z d)
        (inject_Z (d - 1) / inject_Z d) externalCount i Hp Hq).
      set (w := binomial_term _ _ _ _) in *.
      apply Qle_trans with (w * 1); [|rewrite Qmult_1_r; apply Qle_refl].
      apply Qmult_le_compat_nonneg; lra.
    + rewrite binomial_sum by done.
      rewrite wildcard_face_total by lia. rewrite Qpower_1. apply Qle_refl.
Qed.

Lemma conditioning_sum_antitone needed1 needed2 externalCount :
  (2 ≤ d)%Z → (needed1 ≤ needed2)%Z →
  conditioning_sum needed2 externalCount d <=
  conditioning_sum needed1 externalCount d.
Proof.
  intros Hd Hle. destruct (wildcard_face_nonneg ltac:(lia)) as [Hp Hq].
  rewrite !conditioning_sum_given. apply big_sum_le. intros i _.
  pose proof (given_wildcards_bounds needed2 externalCount i Hd).
  pose proof (given_wildcards_antitone needed1 needed2 externalCount i Hd Hle).
  pose proof (binomial_term_nonneg (1 / inject_Z d)
    (inject_Z (d - 1) / inject_Z d) externalCount i Hp Hq).
  apply Qmult_le_compat_nonneg; lra.
Qed.

Lemma conditioning_sum_unreachable needed externalCount :
  (externalCount < needed)%Z → conditioning_sum needed externalCount d == 0.
Proof.
  intros Hlt. rewrite conditioning_sum_given. apply big_sum_zero.
  intros i Hi. unfold given_wildcards.
  rewrite decide_False by lia. rewrite big_sum_empty by lia. ring.
Qed.
End faces.

(** ** Properties of [predict_probability] *)

(** With at least two faces and at most 1029 unseen dice the calculator
    returns: either the hand alone covers the bid, or the result is the
    conditioning sum. *)
Lemma predict_probability_cases x y n d hand :
  2 ≤ d → n - len hand ≤ 1029 →
  ∃ p, predict_probability x y n d hand = Ok p ∧
       ((y - friendly x hand ≤ 0 ∧ p = 1%Q) ∨
        (y - friendly x hand > 0 ∧
         p == conditioning_sum (y - friendly x hand) (n - len hand) d)).
Proof.
  intros Hd Hext. destruct (decide (y - friendly x hand ≤ 0)) as [Hle|Hgt].
  - exists 1%Q. split; [by apply predict_probability_saturated|by left].
  - destruct (predict_probability_sum x y n d hand) as (p & Hp & Hsum);
      [lia..|].
    exists p. split; [done|]. right. split; [lia|done].
Qed.

Lemma friendly_nonneg x hand : 0 ≤ friendly x hand.
Proof. unfold friendly, len. lia. Qed.

Lemma friendly_le_len x hand : friendly x hand ≤ len hand.
Proof. unfold friendly, len. apply Nat2Z.inj_le, length_filter. Qed.

(** C1, as stated, fails: the bid of one two against 1100 unseen six-sided
    dice is valid and not covered by the empty hand, and the calculator
    raises [OverflowError] at line 34 instead of returning the sum. *)
Lemma predict_probability_two_level_sum_overflow :
  valid_config 1100 6 ∧ valid_bid 1100 6 2 1 ∧ valid_hand 1100 6 [] ∧
  1 - friendly 2 [] > 0 ∧
  predict_probability 2 1 1100 6 [] = Raise OverflowError.
Proof.
  split; [split; lia|]. split; [split; lia|].
  split; [split; [by vm_compute|constructor]|]. split; [by vm_compute|].
  apply predict_probability_overflows; [lia|lia|by vm_compute|by vm_compute].
Qed.

(** C1, amended: for a valid bid, configuration and hand with [needed > 0]
    and at most 1029 unseen dice, the calculator returns the two-level
    conditioning sum: the sum over the number [i] of wildcards among the
    unseen dice of [C(externalCount, i) (1/d)^i ((d-1)/d)^(externalCount-i)]
    times [1] when [i >= needed], and otherwise times the sum over [j] from
    [needed - i] to [externalCount - i] of
    [C(externalCount-i, j) (1/(d-1))^j ((d-2)/(d-1))^(externalCount-i-j)].
    The float operations are read as exact rational arithmetic. *)
Theorem predict_probability_two_level_sum x y n d hand :
  valid_config n d → valid_bid n d x y → valid_hand n d hand →
  n - len hand ≤ 1029 →
  y - friendly x hand > 0 →
  ∃ p, predict_probability x y n d hand = Ok p ∧
       p == conditioning_sum (y - friendly x hand) (n - len hand) d.
Proof.
  intros [_ Hd] _ _ Hext Hneeded. apply predict_probability_sum; lia.
Qed.

Lemma predict_probability_two_level_sum_witness :
  valid_config 15 6 ∧ valid_bid 15 6 4 7 ∧ valid_hand 15 6 [3; 4; 5; 2; 1] ∧
  15 - len [3; 4; 5; 2; 1] ≤ 1029 ∧
  7 - friendly 4 [3; 4; 5; 2; 1] > 0 ∧
  ∃ p, predict_probability 4 7 15 6 [3; 4; 5; 2; 1] = Ok p ∧
       p == conditioning_sum (7 - friendly 4 [3; 4; 5; 2; 1])
                             (15 - len [3; 4; 5; 2; 1]) 6.
Proof.
  repeat apply conj;
    [..|apply (predict_probability_two_level_sum 4 7 15 6 [3; 4; 5; 2; 1])];
    concrete.
Defined.

(** C5 (saturation): when the friendly dice of the hand already reach the
    bid's count, the calculator returns exactly 1, and returns it as a value,
    not as an error. *)
Theorem predict_probability_saturation x y n d hand :
  valid_config n d → valid_bid n d x y → valid_hand n d hand →
  friendly x hand >= y →
  predict_probability x y n d hand = Ok 1%Q.
Proof.
  intros _ _ _ Hfriendly. apply predict_probability_saturated. lia.
Qed.

Lemma predict_probability_saturation_witness :
  valid_config 15 6 ∧ valid_bid 15 6 4 2 ∧ valid_hand 15 6 [3; 4; 5; 2; 1] ∧
  friendly 4 [3; 4; 5; 2; 1] >= 2 ∧
  predict_probability 4 2 15 6 [3; 4; 5; 2; 1] = Ok 1%Q.
Proof.
  repeat apply conj;
    [..|apply (predict_probability_saturation 4 2 15 6 [3; 4; 5; 2; 1])];
    concrete.
Defined.

(** C9, as stated, fails: with 1101 six-sided dice, the hand [[3]] and the
    bid of 1101 twos, more dice are needed (1101) than are unseen (1100),
    and the calculator raises [OverflowError] instead of returning 0. *)
Lemma predict_probability_unreachable_overflow :
  valid_config 1101 6 ∧ valid_bid 1101 6 2 1101 ∧ valid_hand 1101 6 [3] ∧
  1101 - friendly 2 [3] > 1101 - len [3] ∧
  predict_probability 2 1101 1101 6 [3] = Raise OverflowError.
Proof.
  split; [split; lia|]. split; [split; lia|].
  split; [split; [by vm_compute|repeat constructor; lia]|].
  split; [by vm_compute|].
  apply predict_probability_overflows; [lia|lia|by vm_compute|by vm_compute].
Qed.

(** C9, amended: when more dice are needed than there are unseen dice, and
    at most 1029 dice are unseen, the calculator returns 0: no number of
    wildcards reaches [needed] and every inner range is empty. *)
Theorem predict_probability_unreachable x y n d hand :
  valid_config n d → valid_bid n d x y → valid_hand n d hand →
  n - len hand ≤ 1029 →
  y - friendly x hand > n - len hand →
  ∃ p, predict_probability x y n d hand = Ok p ∧ p == 0.
Proof.
  intros [_ Hd] _ [Hlen _] Hext Hgt.
  destruct (predict_probability_sum x y n d hand) as (p & Hp & Hsum); [lia..|].
  exists p. split; [done|].
  rewrite Hsum. apply conditioning_sum_unreachable. lia.
Qed.

Lemma predict_probability_unreachable_witness :
  valid_config 3 3 ∧ valid_bid 3 3 2 3 ∧ valid_hand 3 3 [3; 3] ∧
  3 - len [3; 3] ≤ 1029 ∧
  3 - friendly 2 [3; 3] > 3 - len [3; 3] ∧
  ∃ p, predict_probability 2 3 3 3 [3; 3] = Ok p ∧ p == 0.
Proof.
  repeat apply conj;
    [..|apply (predict_probability_unreachable 2 3 3 3 [3; 3])];
    concrete.
Defined.

(** ** The selector *)

Lemma consider_cell_best_of m prev_x prev_y i j c b :
  best_of m (consider_cell prev_x prev_y i j c b) =
  consider m prev_x prev_y (i + 1) (j + 2) c (best_of m b).
Proof.
  unfold consider_cell, consider.
  destruct m; simpl; repeat case_decide; simpl in *; try done; tauto.
Qed.

Lemma scanned_before_next y' x' y x :
  scanned_before y' x' y (x + 1) ↔ scanned_before y' x' y x ∨ (y' = y ∧ x' = x).
Proof. unfold scanned_before. lia. Qed.

Section scan.
Variables (m : policy) (prevX prevY : Z) (baseline : Q) (table : list (list Q)).

Lemma best_among_seen (seen seen' : Z → Z → Prop) r :
  (∀ y x c, 1 ≤ y → 2 ≤ x → cell table y x = Some c → seen y x ↔ seen' y x) →
  best_among m prevX prevY baseline table seen r →
  best_among m prevX prevY baseline table seen' r.
Proof.
  intros Hseen [[-> Hall]|(y & x & Hy & Hx & Hs & Hc & Hact & Hleg & Hlt & Hall)].
  - left. split; [done|]. intros y x c ?? Hs Hc.
    apply (Hall y x c); [done..| |done]. by eapply Hseen.
  - right. exists y, x. repeat (split; [done || by eapply Hseen|]).
    intros y' x' c ?? Hs' Hc'. apply Hall; [done..| |done]. by eapply Hseen.
Qed.

Lemma best_among_start :
  best_among m prevX prevY baseline table (λ y _, y < 1)
    (baseline, call_previous_player).
Proof. left. split; [done|]. intros. lia. Qed.

(** One more cell: the result is replaced exactly when the cell is legal
    and strictly better, and it stays the first best of the cells seen. *)
Lemma best_among_consider y x c r :
  1 ≤ y → 2 ≤ x → cell table y x = Some c →
  best_among m prevX prevY baseline table
    (λ y' x', scanned_before y' x' y x) r →
  best_among m prevX prevY baseline table
    (λ y' x', scanned_before y' x' y (x + 1))
    (consider m prevX prevY y x c r).
Proof.
  intros Hy Hx Hc Hr. unfold consider.
  destruct (decide ((c > r.1)%Q ∧ legal m prevX prevY x y)) as [[Hgt Hleg]|Hno].
  - right. exists y, x. simpl.
    repeat (split; [done || (apply scanned_before_next; by right)|]).
    split.
    { destruct Hr as [[-> _]|(?&?&?&?&?&?&?&?&?&?)]; simpl in *; [done|lra]. }
    intros y' x' c' ?? [Hs|[-> ->]]%scanned_before_next Hc' Hleg'.
    + assert (c' <= r.1)%Q; [|split; [lra|intros _; lra]].
      destruct Hr as [[-> Hall]|(?&?&?&?&?&?&?&?&?& Hall)]; simpl.
      * by apply (Hall y' x').
      * by apply (Hall y' x' c').
    + assert (c' = c) as -> by congruence.
      split; [lra|]. unfold scanned_before. lia.
  - assert (legal m prevX prevY x y → (c <= r.1)%Q) as Hle.
    { intros Hleg. apply Qnot_lt_le. intros Hgt. apply Hno. done. }
    destruct Hr as [[-> Hall]|(y0 & x0 & ?&?& Hs0 &?&?&?&?& Hall)].
    + left. split; [done|].
      intros y' x' c' ?? [Hs|[-> ->]]%scanned_before_next Hc' Hleg'.
      * by apply (Hall y' x').
      * assert (c' = c) as -> by congruence. by apply Hle.
    + right. exists y0, x0.
      repeat (split; [done || (apply scanned_before_next; by left)|]).
      intros y' x' c' ?? [Hs|[-> ->]]%scanned_before_next Hc' Hleg'.
      * by apply Hall.
      * assert (c' = c) as -> by congruence. split; [by apply Hle|].
        unfold scanned_before in *. lia.
Qed.
End scan.

Lemma cell_lookup (table : list (list Q)) i j row c :
  0 ≤ i → 0 ≤ j →
  table !! Z.to_nat i = Some row → row !! Z.to_nat j = Some c →
  cell table (i + 1) (j + 2) = Some c.
Proof.
  intros ?? Hrow Hc. unfold cell.
  replace (i + 1 - 1) with i by lia. replace (j + 2 - 2) with j by lia.
  by rewrite Hrow.
Qed.

Lemma cell_Some (table : list (list Q)) y x c :
  1 ≤ y → 2 ≤ x → cell table y x = Some c →
  ∃ row, table !! Z.to_nat (y - 1) = Some row ∧
         row !! Z.to_nat (x - 2) = Some c ∧
         y - 1 < len table ∧ x - 2 < len row.
Proof.
  intros ?? Hc. unfold cell in Hc.
  destruct (table !! Z.to_nat (y - 1)) as [row|] eqn:Hrow; [|done].
  simpl in Hc. exists row. repeat split; [done|..].
  - apply lookup_lt_Some in Hrow. unfold len. lia.
  - apply lookup_lt_Some in Hc. unfold len. lia.
Qed.

(** The scan returns, and under every policy its result is the challenge
    or the first best legal bid. *)
Lemma select_best_first_best prev_x prev_y p_liar table :
  ∃ b, select_best prev_x prev_y p_liar table = Ok b ∧
       ∀ m, challenge_or_first_best m prev_x prev_y p_liar table (best_of m b).
Proof.
  unfold select_best, challenge_or_first_best.
  edestruct (for_range_inv
    (λ i b, ∀ m, best_among m prev_x prev_y p_liar table (λ y _, y < i + 1)
                   (best_of m b)) 0 (len table)) as (b & Hb & Hinv);
    [| | |exists b; split; [exact Hb|]].
  - unfold len. lia.
  - intros m. destruct m; apply best_among_start.
  - intros i b Hi Hinv.
    destruct (lookup_lt_is_Some_2 table (Z.to_nat i)) as [row Hrow];
      [unfold len in Hi; lia|].
    rewrite (getitem_lookup table i row) by (done || lia). simpl.
    edestruct (for_range_inv
      (λ j b, ∀ m, best_among m prev_x prev_y p_liar table
                     (λ y x, scanned_before y x (i + 1) (j + 2))
                     (best_of m b)) 0 (len row)) as (b' & Hb' & Hinv');
      [| | |exists b'; split; [exact Hb'|]].
    + unfold len. lia.
    + intros m. eapply best_among_seen; [|apply Hinv].
      intros y x c ?? _. unfold scanned_before. simpl. lia.
    + intros j b1 Hj Hinv1.
      destruct (lookup_lt_is_Some_2 row (Z.to_nat j)) as [c Hc];
        [unfold len in Hj; lia|].
      rewrite (getitem_lookup row j c) by (done || lia). simpl.
      eexists. split; [done|]. intros m.
      rewrite consider_cell_best_of.
      replace (j + 1 + 2) with (j + 2 + 1) by lia.
      apply best_among_consider; [lia|lia| |apply Hinv1].
      apply (cell_lookup table i j row c); (done || lia).
    + intros m. eapply best_among_seen; [|apply Hinv'].
      intros y x c ?? Hcell. unfold scanned_before.
      destruct (cell_Some table y x c) as (row' & Hrow' & _ & _ & Hlt);
        [done..|].
      destruct (decide (y = i + 1)) as [->|]; [|lia].
      replace (i + 1 - 1) with i in Hrow' by lia.
      assert (row' = row) as -> by congruence. lia.
  - intros m. eapply best_among_seen; [|apply Hinv].
    intros y x c ?? Hcell.
    destruct (cell_Some table y x c) as (_ & _ & _ & Hlt & _); [done..|].
    simpl. split; [done|lia].
Qed.

(** ** The table *)

Lemma cell_insert (table : list (list Q)) i j row p y x :
  1 ≤ i → 2 ≤ j → 1 ≤ y → 2 ≤ x →
  table !! Z.to_nat (i - 1) = Some row → j - 2 < len row →
  cell (<[Z.to_nat (i - 1) := <[Z.to_nat (j - 2) := p]> row]> table) y x =
  if decide (y = i ∧ x = j) then Some p else cell table y x.
Proof.
  intros ???? Hrow Hj. unfold cell, len in *.
  pose proof (lookup_lt_Some _ _ _ Hrow).
  destruct (decide (y = i)) as [->|Hy].
  - rewrite list_lookup_insert_eq by lia. rewrite Hrow. simpl.
    destruct (decide (x = j)) as [->|Hx].
    + rewrite decide_True by done. apply list_lookup_insert_eq. lia.
    + rewrite decide_False by tauto. apply list_lookup_insert_ne. lia.
  - rewrite decide_False by tauto. rewrite list_lookup_insert_ne by lia. done.
Qed.

Lemma has_shape_insert n d (table : list (list Q)) i j row p :
  has_shape n d table → table !! i = Some row →
  has_shape n d (<[i := <[j := p]> row]> table).
Proof.
  intros [Hlen Hrows] Hrow. unfold has_shape, len in *. split.
  - by rewrite length_insert.
  - apply Forall_insert; [done|]. rewrite length_insert.
    by apply (Forall_lookup_1 _ _ _ _ Hrows Hrow).
Qed.

Lemma has_shape_initial n d :
  0 ≤ n → 0 ≤ d - 1 →
  has_shape n d ((λ j, (λ i, 0%Q) <$> range 0 (d - 1)) <$> range 0 n).
Proof.
  intros. unfold has_shape, len, range. split.
  - rewrite length_fmap, length_seqZ. lia.
  - apply Forall_fmap, Forall_forall. intros j _. simpl.
    rewrite length_fmap, length_seqZ. lia.
Qed.

(** With at most 1029 unseen dice the table is built without error, and
    every cell of it holds the value of the calculator for its bid. *)
Lemma build_table_filled n d hand :
  0 ≤ n → 2 ≤ d → n - len hand ≤ 1029 →
  ∃ table, build_table n d hand = Ok table ∧ has_shape n d table ∧
           ∀ y x, 1 ≤ y ≤ n → 2 ≤ x ≤ d → filled n d hand table y x.
Proof.
  intros Hn Hd Hext. unfold build_table.
  edestruct (for_range_inv
    (λ i table, has_shape n d table ∧
       ∀ y x, 1 ≤ y < i → 2 ≤ x ≤ d → filled n d hand table y x)
    1 (n + 1)) as (table & Htable & Hshape & Hfilled);
    [| | |exists table; split; [exact Htable|split; [exact Hshape|]]].
  - lia.
  - split; [apply has_shape_initial; lia|]. intros. lia.
  - intros i table Hi [Hshape Hrows].
    edestruct (for_range_inv
      (λ j table, has_shape n d table ∧
         (∀ y x, 1 ≤ y < i → 2 ≤ x ≤ d → filled n d hand table y x) ∧
         (∀ x, 2 ≤ x < j → filled n d hand table i x))
      2 (d + 1)) as (table' & Htable' & Hshape' & Hrows' & Hrow');
      [| | |exists table'; split; [exact Htable'|split; [exact Hshape'|]]].
    + lia.
    + repeat split; try done; try apply Hshape. intros. lia.
    + intros j t Hj (Hsh & Hprev & Hcur).
      destruct (predict_probability_cases j i n d hand) as (p & Hp & _);
        [lia..|].
      rewrite Hp. simpl.
      destruct (lookup_lt_is_Some_2 t (Z.to_nat (i - 1))) as [row Hrow].
      { destruct Hsh as [Hlen _]. unfold len in Hlen. lia. }
      assert (len row = d - 1) as Hlenrow.
      { destruct Hsh as [_ Hall]. by apply (Forall_lookup_1 _ _ _ _ Hall Hrow). }
      rewrite (getitem_lookup t (i - 1) row) by (done || lia). simpl.
      rewrite setitem_insert by lia. simpl.
      rewrite setitem_insert by (destruct Hsh as [-> _]; lia).
      eexists. split; [done|].
      split; [by apply has_shape_insert|].
      split.
      * intros y x Hy Hx. destruct (Hprev y x Hy Hx) as (q & Hq & Hcell).
        exists q. split; [done|].
        rewrite cell_insert by (done || lia).
        rewrite decide_False by lia. done.
      * intros x Hx. destruct (decide (x = j)) as [->|Hne].
        -- exists p. split; [done|].
           rewrite cell_insert by (done || lia). by rewrite decide_True.
        -- destruct (Hcur x) as (q & Hq & Hcell); [lia|].
           exists q. split; [done|].
           rewrite cell_insert by (done || lia).
           rewrite decide_False by lia. done.
    + intros y x Hy Hx. destruct (decide (y = i)) as [->|].
      * apply Hrow'. lia.
      * apply Hrows'; lia.
  - intros y x Hy Hx. apply Hfilled; lia.
Qed.

(** ** The decision procedure *)

Lemma display_nonempty (table : list (list Q)) :
  0 < len table → display table = Ok ().
Proof.
  intros Hlen. unfold display.
  destruct table as [|row table]; [unfold len in Hlen; simpl in Hlen; lia|].
  done.
Qed.

(** For a valid configuration with at most 1029 unseen dice a run of the
    decision procedure ends without error, and this is what it computes. *)
Lemma compute_optimal_next_move_run prev_x prev_y n d hand :
  valid_config n d → n - len hand ≤ 1029 →
  ∃ p table b,
    predict_probability prev_x prev_y n d hand = Ok p ∧
    build_table n d hand = Ok table ∧
    (has_shape n d table ∧
     ∀ y x, 1 ≤ y ≤ n → 2 ≤ x ≤ d → filled n d hand table y x) ∧
    (select_best prev_x prev_y (1 - p) table = Ok b ∧
     ∀ m, challenge_or_first_best m prev_x prev_y (1 - p) table
            (best_of m b)) ∧
    compute_optimal_next_move prev_x prev_y n d hand =
      Ok (Decision_ (1 - p) table b).
Proof.
  intros [Hn Hd] Hext. unfold compute_optimal_next_move.
  destruct (predict_probability_cases prev_x prev_y n d hand)
    as (p & Hp & _); [lia..|].
  destruct (build_table_filled n d hand) as (table & Htable & Hshape & Hfill);
    [lia..|].
  destruct (select_best_first_best prev_x prev_y (1 - p) table)
    as (b & Hb & Hbest).
  exists p, table, b. rewrite Hp, Htable. simpl.
  rewrite display_nonempty by (destruct Hshape as [-> _]; lia).
  simpl. rewrite Hb. done.
Qed.

(** With 1030 unseen dice or more a row of the table is filled, or its
    filling raises [OverflowError]: the cells that the hand covers are
    written, the first other one ends the loop. *)
Lemma build_table_row_may_raise n d hand i (t : list (list Q)) :
  2 ≤ d → 1030 ≤ n - len hand → 1 ≤ i ≤ n → has_shape n d t →
  let row_loop :=
    for_each (range 2 (d + 1)) (λ j table,
      p ← predict_probability j i n d hand;
      row ← getitem table (i - 1);
      row ← setitem row (j - 2) p;
      setitem table (i - 1) row) t in
  row_loop = Raise OverflowError ∨
  ∃ t', row_loop = Ok t' ∧ has_shape n d t'.
Proof.
  intros Hd Hext Hi Ht. cbn zeta.
  apply (for_each_may_raise (has_shape n d)); [done|].
  intros j s Hj Hs. unfold range in Hj. apply elem_of_seqZ in Hj.
  destruct (decide (i - friendly j hand ≤ 0)) as [Hcov|Hneeded].
  - right. rewrite predict_probability_saturated by done.
    cbn [mbind result_bind].
    destruct (lookup_lt_is_Some_2 s (Z.to_nat (i - 1))) as [row Hrow].
    { destruct Hs as [Hlen _]. unfold len in Hlen. lia. }
    assert (len row = d - 1) as Hlenrow.
    { destruct Hs as [_ Hall]. by apply (Forall_lookup_1 _ _ _ _ Hall Hrow). }
    rewrite (getitem_lookup s (i - 1) row) by (done || lia).
    cbn [mbind result_bind].
    rewrite setitem_insert by lia. cbn [mbind result_bind].
    rewrite setitem_insert by (destruct Hs as [-> _]; lia).
    eexists. split; [done|]. by apply has_shape_insert.
  - left. rewrite predict_probability_overflows by lia. done.
Qed.

(** With 1030 unseen dice or more the table is never completed: the cell of
    the bid of [n] twos, at the latest, cannot be computed. *)
Lemma build_table_overflows n d hand :
  1 ≤ n → 2 ≤ d → 1030 ≤ n - len hand →
  build_table n d hand = Raise OverflowError.
Proof.
  intros Hn Hd Hext. unfold build_table.
  apply (for_each_raises (has_shape n d) _ _ _ _ n).
  - apply has_shape_initial; lia.
  - unfold range. apply elem_of_seqZ. lia.
  - intros s Hs. rewrite (range_cons 2 (d + 1)) by lia. apply for_each_raise.
    pose proof (friendly_le_len 2 hand).
    rewrite predict_probability_overflows by lia. done.
  - intros i s Hi Hs. unfold range in Hi. apply elem_of_seqZ in Hi.
    apply build_table_row_may_raise; [done|done|lia|done].
Qed.

(** So the decision procedure raises: in its first call of the calculator
    when the hand does not cover the previous bid, and else in the table. *)
Lemma compute_optimal_next_move_overflows prev_x prev_y n d hand :
  1 ≤ n → 2 ≤ d → 1030 ≤ n - len hand →
  compute_optimal_next_move prev_x prev_y n d hand = Raise OverflowError.
Proof.
  intros Hn Hd Hext. unfold compute_optimal_next_move.
  destruct (decide (prev_y - friendly prev_x hand ≤ 0)) as [Hcov|Hneeded].
  - rewrite predict_probability_saturated by done. cbn [mbind result_bind].
    rewrite build_table_overflows by done. done.
  - rewrite predict_probability_overflows by lia. done.
Qed.




(** C3, as stated, fails: with 1100 six-sided dice and the empty hand the
    first cell of the table cannot be computed; the filling loop raises
    [OverflowError], and so does the decision procedure. *)
Lemma table_complete_overflow :
  valid_config 1100 6 ∧ valid_bid 1100 6 2 1 ∧ valid_hand 1100 6 [] ∧
  build_table 1100 6 [] = Raise OverflowError ∧
  compute_optimal_next_move 2 1 1100 6 [] = Raise OverflowError.
Proof.
  split; [split; lia|]. split; [split; lia|].
  split; [split; [by vm_compute|constructor]|]. split.
  - apply build_table_overflows; [lia|lia|by vm_compute].
  - apply compute_optimal_next_move_overflows; [lia|lia|by vm_compute].
Qed.

(** C3, amended (table completeness): with at most 1029 unseen dice the
    table has [totalDice] rows of [faceCount - 1] columns, and the cell of
    row [y - 1] and column [x - 2] holds the value of the calculator for the
    bid [(x, y)]: no cell keeps its initial value. *)
Theorem table_complete prev_x prev_y n d hand :
  valid_config n d → n - len hand ≤ 1029 →
  ∃ r, compute_optimal_next_move prev_x prev_y n d hand = Ok r ∧
       len (table r) = n ∧
       Forall (λ row, len row = d - 1) (table r) ∧
       ∀ y x, 1 ≤ y ≤ n → 2 ≤ x ≤ d →
         ∃ p, predict_probability x y n d hand = Ok p ∧
              table r !! Z.to_nat (y - 1) ≫= (.!! Z.to_nat (x - 2)) = Some p.
Proof.
  intros Hvalid Hext.
  destruct (compute_optimal_next_move_run prev_x prev_y n d hand Hvalid Hext)
    as (p & table & b & _ & _ & [[Hlen Hrows] Hfill] & _ & Hrun).
  eexists. split; [exact Hrun|]. simpl.
  repeat split; [done..|].
  intros y x Hy Hx. apply Hfill; done.
Qed.

Lemma table_complete_witness :
  valid_config 15 6 ∧ 15 - len [3; 4; 5; 2; 1] ≤ 1029 ∧
  ∃ r, compute_optimal_next_move 4 7 15 6 [3; 4; 5; 2; 1] = Ok r ∧
       len (table r) = 15 ∧
       Forall (λ row, len row = 6 - 1) (table r) ∧
       ∀ y x, 1 ≤ y ≤ 15 → 2 ≤ x ≤ 6 →
         ∃ p, predict_probability x y 15 6 [3; 4; 5; 2; 1] = Ok p ∧
              table r !! Z.to_nat (y - 1) ≫= (.!! Z.to_nat (x - 2)) = Some p.
Proof.
  split; [|split; [|apply (table_complete 4 7 15 6 [3; 4; 5; 2; 1])]];
    concrete.
Defined.




(** ** The legality policies as sets of cells *)

Lemma elem_of_table_cells n d y x :
  (y, x) ∈ table_cells n d ↔ 1 ≤ y ≤ n ∧ 2 ≤ x ≤ d.
Proof.
  unfold table_cells, range. rewrite list_elem_of_bind. split.
  - intros (y' & (x' & Hin & Hx)%list_elem_of_bind & Hy).
    apply list_elem_of_singleton in Hin. injection Hin as -> ->.
    apply elem_of_seqZ in Hx, Hy. lia.
  - intros [Hy Hx]. exists y. split; [|apply elem_of_seqZ; lia].
    apply list_elem_of_bind. exists x.
    split; [by apply list_elem_of_singleton|apply elem_of_seqZ; lia].
Qed.

Lemma elem_of_legal_cells m prevX prevY n d y x :
  (y, x) ∈ legal_cells m prevX prevY n d ↔
  1 ≤ y ≤ n ∧ 2 ≤ x ≤ d ∧ legal m prevX prevY x y.
Proof.
  unfold legal_cells.
  rewrite elem_of_list_to_set, list_elem_of_filter, elem_of_table_cells.
  simpl. tauto.
Qed.

Lemma legal_cells_subseteq m1 m2 prevX prevY n d :
  legal_cells m1 prevX prevY n d ⊆ legal_cells m2 prevX prevY n d ↔
  ∀ y x, 1 ≤ y ≤ n → 2 ≤ x ≤ d →
         legal m1 prevX prevY x y → legal m2 prevX prevY x y.
Proof.
  split.
  - intros Hsub y x Hy Hx Hleg.
    apply (elem_of_legal_cells m2 prevX prevY n d y x), Hsub.
    by apply elem_of_legal_cells.
  - intros H [y x] (Hy & Hx & Hleg)%elem_of_legal_cells.
    apply elem_of_legal_cells. auto.
Qed.

Lemma mode_III_subset_I prevX prevY n d :
  legal_cells Mode_III prevX prevY n d ⊆ legal_cells Mode_I prevX prevY n d.
Proof. apply legal_cells_subseteq. simpl. lia. Qed.

Lemma mode_III_subset_II prevX prevY n d :
  legal_cells Mode_III prevX prevY n d ⊆ legal_cells Mode_II prevX prevY n d.
Proof. apply legal_cells_subseteq. simpl. lia. Qed.

(** C8, as the specification states it, fails after a previous bid on all
    the dice: no count is higher, and Mode I allows the cells of Mode III
    and no other. *)
Lemma legality_partition_not_strict :
  valid_config 15 6 ∧ valid_bid 15 6 4 15 ∧
  ¬ (legal_cells Mode_III 4 15 15 6 ⊂ legal_cells Mode_I 4 15 15 6 ∧
     legal_cells Mode_III 4 15 15 6 ⊂ legal_cells Mode_II 4 15 15 6).
Proof.
  split; [concrete|]. split; [concrete|].
  intros [[_ Hstrict] _]. apply Hstrict.
  apply legal_cells_subseteq. simpl. lia.
Qed.

(** C8, amended: the cells of Mode III are cells of Mode I and cells of
    Mode II.  The first inclusion is strict exactly when the previous count
    is below the number of dice; the second exactly when the previous face
    is below the number of faces and some count of the table differs from
    the previous one. *)
Theorem legality_partition prevX prevY n d :
  valid_config n d →
  legal_cells Mode_III prevX prevY n d ⊆ legal_cells Mode_I prevX prevY n d ∧
  legal_cells Mode_III prevX prevY n d ⊆ legal_cells Mode_II prevX prevY n d ∧
  (legal_cells Mode_III prevX prevY n d ⊂ legal_cells Mode_I prevX prevY n d
     ↔ prevY < n) ∧
  (legal_cells Mode_III prevX prevY n d ⊂ legal_cells Mode_II prevX prevY n d
     ↔ prevX < d ∧ (2 ≤ n ∨ prevY ≠ 1)).
Proof.
  intros [Hn Hd].
  split; [apply mode_III_subset_I|]. split; [apply mode_III_subset_II|].
  split; split.
  - intros [_ Hstrict]. destruct (decide (prevY < n)) as [|Hge]; [done|].
    exfalso. apply Hstrict, legal_cells_subseteq. simpl. lia.
  - intros Hlt. split; [apply mode_III_subset_I|].
    rewrite legal_cells_subseteq. intros Hsub.
    pose (y := Z.max (prevY + 1) 1).
    pose (x := if decide (prevX = 2) then 3 else 2).
    specialize (Hsub y x). simpl in Hsub.
    subst x y. case_decide; lia.
  - intros [_ Hstrict].
    destruct (decide (prevX < d ∧ (2 ≤ n ∨ prevY ≠ 1))) as [|Hno]; [done|].
    exfalso. apply Hstrict, legal_cells_subseteq. simpl. lia.
  - intros [Hlt Hcount]. split; [apply mode_III_subset_II|].
    rewrite legal_cells_subseteq. intros Hsub.
    pose (x := Z.max (prevX + 1) 2).
    pose (y := if decide (prevY = 1) then 2 else 1).
    specialize (Hsub y x). simpl in Hsub.
    subst x y. case_decide; lia.
Qed.

Lemma legality_partition_witness :
  valid_config 15 6 ∧
  legal_cells Mode_III 4 7 15 6 ⊆ legal_cells Mode_I 4 7 15 6 ∧
  legal_cells Mode_III 4 7 15 6 ⊆ legal_cells Mode_II 4 7 15 6 ∧
  (legal_cells Mode_III 4 7 15 6 ⊂ legal_cells Mode_I 4 7 15 6 ↔ 7 < 15) ∧
  (legal_cells Mode_III 4 7 15 6 ⊂ legal_cells Mode_II 4 7 15 6
     ↔ 4 < 6 ∧ (2 ≤ 15 ∨ 7 ≠ 1)).
Proof.
  split; [|apply (legality_partition 4 7 15 6)]; concrete.
Defined.

(** ** The simulator *)

(** The dice of one trial: [ext_n] faces, without error when the die has at
    least one face. *)
Lemma roll_dice d ext_n (draw : Z → Z) :
  1 ≤ d → 0 ≤ ext_n →
  ∃ dice, for_each (range 0 ext_n) (λ die dice,
            r ← randint 1 d (draw die); Ok (dice ++ [r])) [] = Ok dice ∧
          len dice = ext_n.
Proof.
  intros Hd Hext.
  apply (for_range_inv (λ k (dice : list Z), len dice = k)); [done..|].
  intros k dice Hk Hlen. unfold randint. rewrite decide_False by lia. simpl.
  eexists. split; [done|]. unfold len in *. rewrite length_app. simpl. lia.
Qed.

(** With at most nine unseen dice the ten buckets suffice, and the
    simulator returns a value. *)
Lemma simulate_probability_nine_dice x y n d hand iterations rolls :
  1 ≤ d → len hand ≤ n → n - len hand ≤ 9 → 0 < iterations →
  ∃ q, simulate_probability x y n d hand iterations rolls = Ok q.
Proof.
  intros Hd Hhand Hnine Hiter. unfold simulate_probability.
  case_decide; [by eexists|].
  set (ext_n := n - len hand) in *. set (ext_y := y - friendly x hand) in *.
  edestruct (for_range_inv (λ _ (st : Z * list Z), length st.2 = 10%nat)
               0 iterations) as ([count buckets] & -> & Hbuckets);
    [lia|done| |].
  - intros i [count buckets] Hi Hlen. simpl in Hlen.
    destruct (roll_dice d ext_n (rolls i)) as (dice & -> & Hdice); [lia..|].
    simpl. case_decide; [|by eexists].
    set (wildcard_count := len (filter (λ die, die = wildcard_value) dice)).
    assert (0 ≤ wildcard_count < 10) as Hwc.
    { pose proof (length_filter (λ die, die = wildcard_value) dice).
      unfold wildcard_count, len in *. lia. }
    destruct (lookup_lt_is_Some_2 buckets (Z.to_nat wildcard_count))
      as [old Hold]; [lia|].
    rewrite (getitem_lookup buckets wildcard_count old) by (done || lia).
    simpl. rewrite setitem_insert by (unfold len; lia). simpl.
    eexists. split; [done|]. simpl. by rewrite length_insert.
  - cbn [snd] in Hbuckets. cbv beta iota delta [mbind result_bind].
    edestruct (for_range_inv (λ _ (_ : list Q), True) 0 10)
      as (wc_p_buckets & -> & _); [lia|done| |].
    + intros i acc Hi _.
      destruct (lookup_lt_is_Some_2 buckets (Z.to_nat i)) as [b Hb]; [lia|].
      rewrite (getitem_lookup buckets i b) by (done || lia). simpl.
      rewrite truediv_ok by lia. simpl. by eexists.
    + simpl. rewrite truediv_ok by lia. by eexists.
Qed.

(** C10 fails on the scenario of the source file: fifteen dice, a hand of
    five, so ten unseen dice.  When the ten of them roll the wildcard face
    the trial is a success with [wildcard_count = 10], and the update of
    [wildcard_buckets], a list of ten elements, raises [IndexError]. *)
Theorem simulate_probability_bucket_overflow :
  valid_config 15 6 ∧ valid_bid 15 6 4 7 ∧ valid_hand 15 6 [3; 4; 5; 2; 1] ∧
  (∀ i k : Z, 1 ≤ (λ _ _, 1) i k ≤ 6) ∧
  simulate_probability 4 7 15 6 [3; 4; 5; 2; 1] 1 (λ _ _, 1) = Raise IndexError.
Proof. repeat apply conj; concrete. Qed.

(** ** Edge behaviour of the calculator *)







(** X2: a hand of more than [n] dice that does not cover the bid gives 0,
    without error, whatever the number of faces. *)
Theorem predict_probability_long_hand x y n d hand :
  len hand > n → y - friendly x hand > 0 →
  predict_probability x y n d hand = Ok 0%Q.
Proof.
  intros Hlen Hneeded. unfold predict_probability.
  rewrite decide_False by lia. by rewrite range_nil by lia.
Qed.

Lemma predict_probability_long_hand_witness :
  len [3; 3; 2] > 2 ∧ 2 - friendly 2 [3; 3; 2] > 0 ∧
  predict_probability 2 2 2 6 [3; 3; 2] = Ok 0%Q.
Proof.
  repeat apply conj;
    [..|apply (predict_probability_long_hand 2 2 2 6 [3; 3; 2])]; concrete.
Defined.

Lemma friendly_Permutation x hand hand' :
  hand ≡ₚ hand' → friendly x hand = friendly x hand'.
Proof. intros H. unfold friendly, len. by rewrite H. Qed.

(** X3: the hand is a multiset: the order of its dice does not matter. *)
Theorem predict_probability_Permutation x y n d hand hand' :
  hand ≡ₚ hand' →
  predict_probability x y n d hand = predict_probability x y n d hand'.
Proof.
  intros H. unfold predict_probability.
  rewrite (friendly_Permutation x hand hand' H).
  unfold len. by rewrite (Permutation_length H).
Qed.

Lemma predict_probability_Permutation_witness :
  [3; 4; 5; 2; 1] ≡ₚ [1; 2; 3; 4; 5] ∧
  predict_probability 4 7 15 6 [3; 4; 5; 2; 1] =
  predict_probability 4 7 15 6 [1; 2; 3; 4; 5].
Proof.
  assert ([3; 4; 5; 2; 1] ≡ₚ [1; 2; 3; 4; 5]) as H.
  { apply (bool_decide_unpack _). by vm_compute. }
  split; [exact H|].
  apply (predict_probability_Permutation 4 7 15 6 _ _ H).
Defined.

(** ** The simulator, trial by trial *)

Lemma simulate_probability_trials x y n d hand iterations rolls :
  simulate_probability x y n d hand iterations rolls =
  if decide (y - friendly x hand ≤ 0) then Ok 1%Q
  else
    '(bid_success_count, wildcard_buckets) ←
      for_each (range 0 iterations)
        (simulate_trial x d (n - len hand) (y - friendly x hand) rolls)
        (0, (λ _, 0) <$> range 0 10);
    wc_p_buckets ←
      for_each (range 0 10) (λ i wc_p_buckets,
        b ← getitem wildcard_buckets i;
        q ← truediv b iterations;
        Ok (wc_p_buckets ++ [round q 4])) [];
    truediv bid_success_count iterations.
Proof. reflexivity. Qed.

(** The dice of line 72 are the faces that [random.randint] returns. *)
Lemma roll_dice_of d ext_n (draw : Z → Z) :
  1 ≤ d → 0 ≤ ext_n →
  for_each (range 0 ext_n) (λ die dice,
    r ← randint 1 d (draw die); Ok (dice ++ [r])) [] = Ok (dice_of ext_n draw).
Proof.
  intros Hd Hext.
  edestruct (for_range_inv (λ k (dice : list Z), dice = dice_of k draw)
               0 ext_n) as (dice & -> & ->); [done|done| |done].
  intros k dice Hk ->. unfold randint. rewrite decide_False by lia. simpl.
  eexists. split; [done|]. unfold dice_of.
  rewrite range_snoc by lia. by rewrite fmap_app.
Qed.

Lemma length_dice_of ext_n draw : 0 ≤ ext_n → len (dice_of ext_n draw) = ext_n.
Proof.
  intros. unfold len, dice_of, range. rewrite length_fmap, length_seqZ. lia.
Qed.

Section trial.
Variables (x d ext_n ext_y : Z) (rolls : Z → Z → Z).
Hypothesis some_face : 1 ≤ d.
Hypothesis some_dice : 0 ≤ ext_n.

Lemma simulate_trial_failure i count buckets :
  ¬ trial_succeeds x ext_y (dice_of ext_n (rolls i)) →
  simulate_trial x d ext_n ext_y rolls i (count, buckets) = Ok (count, buckets).
Proof.
  intros Hfail. unfold simulate_trial. rewrite roll_dice_of by done. simpl.
  by rewrite decide_False by done.
Qed.

Lemma simulate_trial_success i count buckets :
  length buckets = 10%nat →
  trial_succeeds x ext_y (dice_of ext_n (rolls i)) →
  ¬ overflows x ext_y ext_n rolls i →
  ∃ buckets', simulate_trial x d ext_n ext_y rolls i (count, buckets)
              = Ok (count + 1, buckets') ∧ length buckets' = 10%nat.
Proof.
  intros Hlen Hwin Hfit. unfold simulate_trial.
  rewrite roll_dice_of by done. simpl. rewrite decide_True by done.
  set (wildcard_count :=
         len (filter (λ die, die = wildcard_value) (dice_of ext_n (rolls i)))).
  assert (0 ≤ wildcard_count < 10) as Hwc.
  { split; [unfold wildcard_count, len; lia|].
    destruct (decide (wildcard_count < 10)); [done|].
    exfalso. apply Hfit. split; [done|]. fold wildcard_count. lia. }
  destruct (lookup_lt_is_Some_2 buckets (Z.to_nat wildcard_count))
    as [old Hold]; [lia|].
  rewrite (getitem_lookup buckets wildcard_count old) by (done || lia).
  simpl. rewrite setitem_insert by (unfold len; lia). simpl.
  eexists. split; [done|]. by rewrite length_insert.
Qed.

Lemma simulate_trial_overflow i count buckets :
  length buckets = 10%nat →
  overflows x ext_y ext_n rolls i →
  simulate_trial x d ext_n ext_y rolls i (count, buckets) = Raise IndexError.
Proof.
  intros Hlen [Hwin Hmany]. unfold simulate_trial.
  rewrite roll_dice_of by done. simpl. rewrite decide_True by done.
  unfold getitem, index_of. rewrite Hlen.
  rewrite !decide_False by lia. done.
Qed.

Lemma successes_next i :
  0 ≤ i →
  successes x ext_y ext_n (i + 1) rolls =
  successes x ext_y ext_n i rolls
  + (if decide (trial_succeeds x ext_y (dice_of ext_n (rolls i)))
     then 1 else 0).
Proof.
  intros Hi. unfold successes, len.
  rewrite range_snoc by done. rewrite filter_app, length_app, filter_cons.
  case_decide; simpl length; lia.
Qed.

Lemma successes_bounds i : 0 ≤ i → 0 ≤ successes x ext_y ext_n i rolls ≤ i.
Proof.
  intros Hi. unfold successes, len. split; [lia|].
  transitivity (Z.of_nat (length (range 0 i))).
  - apply inj_le, length_filter.
  - unfold range. rewrite length_seqZ. lia.
Qed.

(** Without overflow the main loop counts the successful trials. *)
Lemma simulate_trials_count iterations :
  0 ≤ iterations →
  (∀ i, 0 ≤ i < iterations → ¬ overflows x ext_y ext_n rolls i) →
  ∃ buckets,
    for_each (range 0 iterations) (simulate_trial x d ext_n ext_y rolls)
      (0, (λ _, 0) <$> range 0 10)
    = Ok (successes x ext_y ext_n iterations rolls, buckets) ∧
    length buckets = 10%nat.
Proof.
  intros Hiter Hfit.
  destruct (for_range_inv
    (λ i (st : Z * list Z),
       st.1 = successes x ext_y ext_n i rolls ∧ length st.2 = 10%nat)
    0 iterations (simulate_trial x d ext_n ext_y rolls)
    (0, (λ _, 0) <$> range 0 10))
    as ([count buckets] & Hrun & Hcount & Hlen);
    [done|split; reflexivity| |exists buckets; simpl in *; by subst].
  intros i [count buckets] Hi [Hcount Hlen]. cbn [fst snd] in Hcount, Hlen.
  rewrite successes_next by lia.
  destruct (decide (trial_succeeds x ext_y (dice_of ext_n (rolls i))))
    as [Hwin|Hfail].
  - destruct (simulate_trial_success i count buckets Hlen Hwin)
      as (buckets' & -> & Hlen'); [by apply Hfit|].
    eexists. split; [done|]. simpl. split; [lia|done].
  - rewrite simulate_trial_failure by done.
    eexists. split; [done|]. simpl. split; [lia|done].
Qed.
End trial.

(** The closing loop over the ten buckets (lines 78-79) and the final
    division need one trial at least. *)
Lemma simulate_closing (buckets : list Z) iterations :
  length buckets = 10%nat → iterations ≠ 0 →
  ∃ wc, for_each (range 0 10) (λ i wc_p_buckets,
          b ← getitem buckets i;
          q ← truediv b iterations;
          Ok (wc_p_buckets ++ [round q 4])) [] = Ok wc.
Proof.
  intros Hlen Hiter.
  edestruct (for_range_inv (λ _ (_ : list Q), True) 0 10)
    as (wc & Hwc & _); [lia|done| |by exists wc].
  intros i acc Hi _.
  destruct (lookup_lt_is_Some_2 buckets (Z.to_nat i)) as [b Hb]; [lia|].
  rewrite (getitem_lookup buckets i b) by (done || lia). simpl.
  rewrite truediv_ok by done. simpl. by eexists.
Qed.

(** X9: as long as no successful trial has ten wildcards or more, the
    simulator returns the share of the successful trials, a value of
    [0, 1]. *)
Theorem simulate_probability_share x y n d hand iterations rolls :
  1 ≤ d → len hand ≤ n → 0 < iterations → y - friendly x hand > 0 →
  (∀ i, 0 ≤ i < iterations →
     ¬ overflows x (y - friendly x hand) (n - len hand) rolls i) →
  ∃ q, simulate_probability x y n d hand iterations rolls = Ok q ∧
       q == inject_Z (successes x (y - friendly x hand) (n - len hand)
                        iterations rolls) / inject_Z iterations ∧
       (0 <= q <= 1)%Q.
Proof.
  intros Hd Hlen Hiter Hneeded Hfit.
  rewrite simulate_probability_trials. rewrite decide_False by lia.
  destruct (simulate_trials_count x d (n - len hand) (y - friendly x hand)
              rolls Hd ltac:(lia) iterations ltac:(lia) Hfit)
    as (buckets & -> & Hbuckets).
  cbn [mbind result_bind].
  destruct (simulate_closing buckets iterations Hbuckets ltac:(lia))
    as (wc & ->).
  cbn [mbind result_bind].
  rewrite truediv_ok by lia.
  eexists. split; [done|]. split; [reflexivity|].
  pose proof (successes_bounds x (n - len hand) (y - friendly x hand) rolls
                iterations ltac:(lia)) as [Hlo Hhi].
  assert (0 < inject_Z iterations)%Q as Hpos.
  { change 0%Q with (inject_Z 0). rewrite <- Zlt_Qlt. done. }
  split.
  - apply Qle_shift_div_l; [done|]. rewrite Qmult_0_l.
    change 0%Q with (inject_Z 0). by rewrite <- Zle_Qle.
  - apply Qle_shift_div_r; [done|]. rewrite Qmult_1_l. by rewrite <- Zle_Qle.
Qed.

Lemma simulate_probability_share_witness :
  1 ≤ 6 ∧ len [3; 4; 5; 2; 1] ≤ 15 ∧ 0 < 2 ∧
  7 - friendly 4 [3; 4; 5; 2; 1] > 0 ∧
  (∀ i, 0 ≤ i < 2 →
     ¬ overflows 4 (7 - friendly 4 [3; 4; 5; 2; 1]) (15 - len [3; 4; 5; 2; 1])
         (λ _ _, 4) i) ∧
  ∃ q, simulate_probability 4 7 15 6 [3; 4; 5; 2; 1] 2 (λ _ _, 4) = Ok q ∧
       q == inject_Z (successes 4 (7 - friendly 4 [3; 4; 5; 2; 1])
                        (15 - len [3; 4; 5; 2; 1]) 2 (λ _ _, 4))
            / inject_Z 2 ∧
       (0 <= q <= 1)%Q.
Proof.
  assert (∀ i, 0 ≤ i < 2 →
     ¬ overflows 4 (7 - friendly 4 [3; 4; 5; 2; 1]) (15 - len [3; 4; 5; 2; 1])
         (λ _ _, 4) i) as Hfit.
  { intros i _ [_ Hmany]. vm_compute in Hmany. by apply Hmany. }
  repeat apply conj;
    [..|exact Hfit
       |apply (simulate_probability_share 4 7 15 6 [3; 4; 5; 2; 1] 2 (λ _ _, 4));
        [..|exact Hfit]]; concrete.
Defined.

(** X10: a successful trial with ten wildcards or more stops the simulator
    with [IndexError]: the list of buckets has ten elements. *)
Theorem simulate_probability_overflow x y n d hand iterations rolls i :
  1 ≤ d → len hand ≤ n → y - friendly x hand > 0 →
  0 ≤ i < iterations →
  overflows x (y - friendly x hand) (n - len hand) rolls i →
  simulate_probability x y n d hand iterations rolls = Raise IndexError.
Proof.
  intros Hd Hlen Hneeded Hi Hover.
  rewrite simulate_probability_trials. rewrite decide_False by lia.
  rewrite (for_each_raises (λ st : Z * list Z, length st.2 = 10%nat)
             _ _ _ IndexError i); [done|done| | |].
  - unfold range. apply elem_of_seqZ. lia.
  - intros [count buckets] Hbuckets.
    apply simulate_trial_overflow; (done || lia).
  - intros j [count buckets] _ Hbuckets. simpl in Hbuckets.
    destruct (decide (overflows x (y - friendly x hand) (n - len hand) rolls j))
      as [Hj|Hj].
    { left. apply simulate_trial_overflow; (done || lia). }
    right.
    destruct (decide (trial_succeeds x (y - friendly x hand)
                        (dice_of (n - len hand) (rolls j)))) as [Hwin|Hfail].
    + destruct (simulate_trial_success x d (n - len hand)
                  (y - friendly x hand) rolls Hd ltac:(lia) j count buckets)
        as (buckets' & -> & Hlen'); [done..|].
      by eexists.
    + rewrite simulate_trial_failure by (done || lia). by eexists.
Qed.

Lemma simulate_probability_overflow_witness :
  1 ≤ 6 ∧ len [3; 4; 5; 2; 1] ≤ 15 ∧ 7 - friendly 4 [3; 4; 5; 2; 1] > 0 ∧
  0 ≤ 2 < 5 ∧
  overflows 4 (7 - friendly 4 [3; 4; 5; 2; 1]) (15 - len [3; 4; 5; 2; 1])
    (λ i _, if decide (i = 2) then 1 else 3) 2 ∧
  simulate_probability 4 7 15 6 [3; 4; 5; 2; 1] 5
    (λ i _, if decide (i = 2) then 1 else 3) = Raise IndexError.
Proof.
  assert (overflows 4 (7 - friendly 4 [3; 4; 5; 2; 1])
            (15 - len [3; 4; 5; 2; 1])
            (λ i _, if decide (i = 2) then 1 else 3) 2) as Hover.
  { split; by vm_compute. }
  refine (conj _ (conj _ (conj _ (conj _ (conj Hover
    (simulate_probability_overflow 4 7 15 6 [3; 4; 5; 2; 1] 5
       (λ i _, if decide (i = 2) then 1 else 3) 2 _ _ _ _ Hover))))));
    concrete.
Defined.

(** X11: without a trial ([iterations = 0]) the simulator divides by zero,
    unless the hand covers the bid. *)
Theorem simulate_probability_no_trial x y n d hand rolls :
  y - friendly x hand > 0 →
  simulate_probability x y n d hand 0 rolls = Raise ZeroDivisionError.
Proof.
  intros Hneeded. rewrite simulate_probability_trials.
  rewrite decide_False by lia. reflexivity.
Qed.

Lemma simulate_probability_no_trial_witness :
  7 - friendly 4 [3; 4; 5; 2; 1] > 0 ∧
  simulate_probability 4 7 15 6 [3; 4; 5; 2; 1] 0 (λ _ _, 1)
  = Raise ZeroDivisionError.
Proof.
  split; [|apply (simulate_probability_no_trial 4 7 15 6 [3; 4; 5; 2; 1])];
    concrete.
Defined.

(** X12: a die without a face cannot be rolled: with an unseen die and a
    trial to run, [random.randint(1, d)] raises [ValueError]. *)
Theorem simulate_probability_no_face x y n d hand iterations rolls :
  d < 1 → len hand < n → 0 < iterations → y - friendly x hand > 0 →
  simulate_probability x y n d hand iterations rolls = Raise ValueError.
Proof.
  intros Hd Hlen Hiter Hneeded. rewrite simulate_probability_trials.
  rewrite decide_False by lia. rewrite (range_cons 0 iterations) by lia.
  rewrite (for_each_raise 0 _ _ _ ValueError); [done|].
  unfold simulate_trial. rewrite (range_cons 0 (n - len hand)) by lia.
  rewrite (for_each_raise 0 _ _ _ ValueError); [done|].
  unfold randint. by rewrite decide_True by lia.
Qed.

Lemma simulate_probability_no_face_witness :
  0 < 1 ∧ len [3] < 2 ∧ 0 < 1 ∧ 2 - friendly 2 [3] > 0 ∧
  simulate_probability 2 2 2 0 [3] 1 (λ _ _, 1) = Raise ValueError.
Proof.
  repeat apply conj;
    [..|apply (simulate_probability_no_face 2 2 2 0 [3] 1 (λ _ _, 1))];
    concrete.
Defined.

(** ** Prediction against simulation *)

(** X13: when the hand covers the bid, prediction and simulation are both 1
    and their difference is 0, whatever the number of trials and the
    rolls. *)
Theorem compare_covered x y n d hand iterations rolls :
  friendly x hand >= y →
  compare_prediction_vs_simulation x y n d hand iterations rolls = Ok 0%Q.
Proof.
  intros Hcov. unfold compare_prediction_vs_simulation.
  rewrite predict_probability_saturated by lia.
  rewrite simulate_probability_trials, decide_True by lia. reflexivity.
Qed.

Lemma compare_covered_witness :
  friendly 4 [3; 4; 5; 2; 1] >= 2 ∧
  compare_prediction_vs_simulation 4 2 15 6 [3; 4; 5; 2; 1] 0 (λ _ _, 1)
  = Ok 0%Q.
Proof.
  split; [|apply (compare_covered 4 2 15 6 [3; 4; 5; 2; 1] 0 (λ _ _, 1))];
    concrete.
Defined.

(** X15: without a round there is no difference to print:
    [max] of the empty list raises [ValueError]. *)
Theorem random_comparison_no_round rounds iterations o :
  rounds ≤ 0 → random_comparison rounds iterations o = Raise ValueError.
Proof.
  intros Hrounds. unfold random_comparison. by rewrite range_nil by lia.
Qed.

Lemma random_comparison_no_round_witness :
  0 ≤ 0 ∧
  random_comparison 0 100 (Draws (λ _, 2) (λ _, 1) (λ _ _, 1) (λ _ _ _, 1))
  = Raise ValueError.
Proof.
  split; [|apply (random_comparison_no_round 0 100)]; concrete.
Defined.

(** ** The decision procedure on its edges *)

Lemma randint_ok a b drawn : a ≤ b → randint a b drawn = Ok drawn.
Proof. intros. unfold randint. by rewrite decide_False by lia. Qed.

(** X16: the random test of the decision procedure never raises, whatever is
    drawn, and its table has fifteen rows of five columns. *)
Theorem test_random_optimal_next_move_returns drawn_x drawn_y drawn_hand :
  ∃ r, test_random_optimal_next_move drawn_x drawn_y drawn_hand = Ok r ∧
       has_shape 15 6 (table r).
Proof.
  unfold test_random_optimal_next_move.
  rewrite (randint_ok 2 6), (randint_ok 1 15) by lia. cbn [mbind result_bind].
  rewrite (roll_dice_of 6 5 drawn_hand) by lia. cbn [mbind result_bind].
  set (hand := dice_of 5 drawn_hand).
  destruct (compute_optimal_next_move_run drawn_x drawn_y 15 6 hand)
    as (p & t & b & _ & _ & [Hshape _] & _ & ->);
    [split; lia|unfold len; lia|].
  eexists. split; [done|]. done.
Qed.

(** X17: without dice ([n <= 0]) the table is empty and the header line of
    [display] raises [IndexError]. *)
Theorem compute_optimal_next_move_no_dice prev_x prev_y n d hand :
  n ≤ 0 → 2 ≤ d →
  compute_optimal_next_move prev_x prev_y n d hand = Raise IndexError.
Proof.
  intros Hn Hd. unfold compute_optimal_next_move.
  destruct (predict_probability_cases prev_x prev_y n d hand)
    as (p & -> & _); [done|unfold len; lia|].
  unfold build_table. rewrite (range_nil 1 (n + 1)) by lia.
  rewrite (range_nil 0 n) by lia. reflexivity.
Qed.

Lemma compute_optimal_next_move_no_dice_witness :
  0 ≤ 0 ∧ 2 ≤ 6 ∧ compute_optimal_next_move 4 7 0 6 [] = Raise IndexError.
Proof.
  repeat apply conj;
    [..|apply (compute_optimal_next_move_no_dice 4 7 0 6 [])]; concrete.
Defined.

(** ** What the selector recommends *)

(** A run of the decision procedure with at most 1029 unseen dice, with its
    baseline, its table and its results. *)
Lemma compute_optimal_next_move_spec prev_x prev_y n d hand :
  valid_config n d → n - len hand ≤ 1029 →
  ∃ r q, compute_optimal_next_move prev_x prev_y n d hand = Ok r ∧
         predict_probability prev_x prev_y n d hand = Ok q ∧
         p_liar r = (1 - q)%Q ∧
         has_shape n d (table r) ∧
         (∀ y x, 1 ≤ y ≤ n → 2 ≤ x ≤ d → filled n d hand (table r) y x) ∧
         ∀ m, challenge_or_first_best m prev_x prev_y (p_liar r) (table r)
                (best_of m (optimal r)).
Proof.
  intros Hvalid Hext.
  destruct (compute_optimal_next_move_run prev_x prev_y n d hand Hvalid Hext)
    as (q & t & b & Hq & _ & [Hshape Hfill] & [_ Hbest] & ->).
  eexists _, q. split; [done|]. done.
Qed.

(** A cell of a table of [n] rows and [d - 1] columns is the cell of a bid
    of the table. *)
Lemma cell_in_table n d (t : list (list Q)) y x c :
  has_shape n d t → 1 ≤ y → 2 ≤ x → cell t y x = Some c →
  1 ≤ y ≤ n ∧ 2 ≤ x ≤ d.
Proof.
  intros [Hrows Hcols] Hy Hx Hc.
  destruct (cell_Some t y x c) as (row & Hrow & _ & Hlt & Hltx); [done..|].
  pose proof (Forall_lookup_1 _ _ _ _ Hcols Hrow) as Hlen. simpl in Hlen. lia.
Qed.

Lemma legal_III_I prevX prevY x y :
  legal Mode_III prevX prevY x y → legal Mode_I prevX prevY x y.
Proof. simpl. lia. Qed.

Lemma legal_III_II prevX prevY x y :
  legal Mode_III prevX prevY x y → legal Mode_II prevX prevY x y.
Proof. simpl. lia. Qed.

(** A result is at least the baseline. *)
Lemma first_best_ge_baseline m prevX prevY baseline t r :
  challenge_or_first_best m prevX prevY baseline t r → (baseline <= r.1)%Q.
Proof.
  intros [[-> _]|(y & x & _ & _ & _ & _ & _ & _ & Hlt & _)]; simpl; lra.
Qed.

(** A larger set of legal bids gives a result at least as high. *)
Lemma first_best_mono m1 m2 prevX prevY baseline t r1 r2 :
  (∀ x y, legal m1 prevX prevY x y → legal m2 prevX prevY x y) →
  challenge_or_first_best m1 prevX prevY baseline t r1 →
  challenge_or_first_best m2 prevX prevY baseline t r2 →
  (r1.1 <= r2.1)%Q.
Proof.
  intros Hsub H1 H2.
  destruct H1 as [[-> _]|(y & x & Hy & Hx & _ & Hc & _ & Hleg & Hlt & _)].
  { by eapply first_best_ge_baseline. }
  destruct H2 as [[Heq Hall]|(? & ? & _ & _ & _ & _ & _ & _ & _ & Hall)].
  - rewrite Heq. simpl. by apply (Hall y x); [..|apply Hsub].
  - by apply (Hall y x); [..|apply Hsub].
Qed.

(** X18: with at most 1029 unseen dice the run returns; under every policy
    the recommended action is at least as likely to succeed as the
    challenge, and the single-axis policy (Mode III) never does better than
    Mode I or Mode II. *)
Theorem selector_results_ordered prev_x prev_y n d hand :
  valid_config n d → n - len hand ≤ 1029 →
  ∃ r, compute_optimal_next_move prev_x prev_y n d hand = Ok r ∧
       (p_liar r <= best_III_p (optimal r))%Q ∧
       (best_III_p (optimal r) <= best_I_p (optimal r))%Q ∧
       (best_III_p (optimal r) <= best_II_p (optimal r))%Q.
Proof.
  intros Hvalid Hext.
  destruct (compute_optimal_next_move_spec prev_x prev_y n d hand Hvalid Hext)
    as (r & q & Hr & _ & _ & _ & _ & Hbest).
  exists r. split; [done|].
  pose proof (Hbest Mode_I) as H1. pose proof (Hbest Mode_II) as H2.
  pose proof (Hbest Mode_III) as H3. repeat split.
  - apply (first_best_ge_baseline _ _ _ _ _ _ H3).
  - apply (first_best_mono _ _ _ _ _ _ _ _ (legal_III_I prev_x prev_y) H3 H1).
  - apply (first_best_mono _ _ _ _ _ _ _ _ (legal_III_II prev_x prev_y) H3 H2).
Qed.

Lemma selector_results_ordered_witness :
  valid_config 15 6 ∧ 15 - len [3; 4; 5; 2; 1] ≤ 1029 ∧
  ∃ r, compute_optimal_next_move 4 7 15 6 [3; 4; 5; 2; 1] = Ok r ∧
       (p_liar r <= best_III_p (optimal r))%Q ∧
       (best_III_p (optimal r) <= best_I_p (optimal r))%Q ∧
       (best_III_p (optimal r) <= best_II_p (optimal r))%Q.
Proof.
  split; [|split;
    [|apply (selector_results_ordered 4 7 15 6 [3; 4; 5; 2; 1])]];
    concrete.
Defined.

(** X19: with at most 1029 unseen dice, after a bid of the highest face on
    all the dice no raise is legal: the run returns and the three policies
    recommend the challenge. *)
Theorem selector_top_bid prev_x prev_y n d hand :
  valid_config n d → n - len hand ≤ 1029 → d ≤ prev_x → n ≤ prev_y →
  ∃ r, compute_optimal_next_move prev_x prev_y n d hand = Ok r ∧
       ∀ m, best_of m (optimal r) = (p_liar r, call_previous_player).
Proof.
  intros Hvalid Hext Hx Hy.
  destruct (compute_optimal_next_move_spec prev_x prev_y n d hand Hvalid Hext)
    as (r & q & Hr & _ & _ & Hshape & _ & Hbest).
  exists r. split; [done|]. intros m.
  destruct (Hbest m) as [[Heq _]|(y & x & ? & ? & _ & Hc & _ & Hleg & _)];
    [done|].
  destruct (cell_in_table n d (table r) y x _ Hshape ltac:(done) ltac:(done) Hc).
  exfalso. destruct m; simpl in Hleg; lia.
Qed.

Lemma selector_top_bid_witness :
  valid_config 15 6 ∧ 15 - len [3; 4; 5; 2; 1] ≤ 1029 ∧ 6 ≤ 6 ∧ 15 ≤ 15 ∧
  ∃ r, compute_optimal_next_move 6 15 15 6 [3; 4; 5; 2; 1] = Ok r ∧
       ∀ m, best_of m (optimal r) = (p_liar r, call_previous_player).
Proof.
  repeat apply conj;
    [..|apply (selector_top_bid 6 15 15 6 [3; 4; 5; 2; 1])]; concrete.
Defined.



(** ** The limit of the decision procedure *)

(** X23: for a valid configuration the decision procedure returns exactly
    when at most 1029 dice are unseen; with 1030 unseen dice or more it
    raises [OverflowError], whatever the previous bid and the hand. *)
Theorem compute_optimal_next_move_limit prev_x prev_y n d hand :
  valid_config n d →
  (n - len hand ≤ 1029 →
   ∃ r, compute_optimal_next_move prev_x prev_y n d hand = Ok r) ∧
  (1030 ≤ n - len hand →
   compute_optimal_next_move prev_x prev_y n d hand = Raise OverflowError).
Proof.
  intros Hvalid. split.
  - intros Hext.
    destruct (compute_optimal_next_move_run prev_x prev_y n d hand Hvalid Hext)
      as (p & t & b & _ & _ & _ & _ & Hrun).
    by eexists.
  - intros Hext. destruct Hvalid as [Hn Hd].
    apply compute_optimal_next_move_overflows; lia.
Qed.

Lemma compute_optimal_next_move_limit_witness :
  valid_config 1100 6 ∧
  (1100 - len [1; 2; 3] ≤ 1029 →
   ∃ r, compute_optimal_next_move 3 1 1100 6 [1; 2; 3] = Ok r) ∧
  (1030 ≤ 1100 - len [1; 2; 3] →
   compute_optimal_next_move 3 1 1100 6 [1; 2; 3] = Raise OverflowError).
Proof.
  split; [split; lia|].
  apply (compute_optimal_next_move_limit 3 1 1100 6 [1; 2; 3]). split; lia.
Defined.
